(** * LocalWebP: batch conversion pipeline

    A shallow embedding of the item model ([types.ts]), the ingestion
    component ([DropZone]), the conversion engine ([convertToWebP]), the
    per-row orchestration ([ImageRow]) and the batch handlers of [App], with
    the properties of the pipeline proved over it.

    Conventions.  JavaScript integers (sizes, milliseconds, percents) are [Z];
    the quality factor is a rational [Q]; an optional property is an [option];
    a [Set<string>] is a [gset string].  React state updates are explicit
    state passing: every [setImages(prev => ...)] is a function on the list of
    items, applied in the order the updates are enqueued. *)

From Stdlib Require Import Ascii ZArith QArith Lia.
From Equations Require Import Equations.
From stdpp Require Import gmap strings list pretty sorting.

Close Scope Q_scope.
Local Open Scope Z_scope.

(** ** Strings *)

(** [String.prototype.toLowerCase], on the ASCII range. *)
Definition lower_ascii (c : ascii) : ascii :=
  let n := Ascii.N_of_ascii c in
  if ((65 <=? n) && (n <=? 90))%N then Ascii.ascii_of_N (n + 32) else c.

Fixpoint toLowerCase (s : string) : string :=
  match s with
  | EmptyString => EmptyString
  | String c r => String (lower_ascii c) (toLowerCase r)
  end.

(** [s.endsWith(suffix)]: some tail of [s] is [suffix]. *)
Fixpoint endsWith (s suffix : string) : bool :=
  if String.eqb s suffix then true
  else match s with
       | EmptyString => false
       | String _ r => endsWith r suffix
       end.

(** The character class [[^/.]] of the extension pattern. *)
Definition notSlashDot (c : ascii) : bool :=
  negb (Ascii.eqb c "/"%char || Ascii.eqb c "."%char).

Fixpoint allNotSlashDot (s : string) : bool :=
  match s with
  | EmptyString => true
  | String c r => notSlashDot c && allNotSlashDot r
  end.

(** [name.replace(/\.[^/.]+$/, "")]: the leftmost position where a dot is
    followed, up to the end of the string, by one or more characters that are
    neither a slash nor a dot; the match is removed. *)
Fixpoint stripExtension (s : string) : string :=
  match s with
  | EmptyString => EmptyString
  | String c r =>
      if Ascii.eqb c "."%char && negb (String.eqb r "") && allNotSlashDot r
      then EmptyString
      else String c (stripExtension r)
  end.

(** ** Item model ([types.ts]) *)

Record Blob := mkBlob { blob_size : Z; blob_type : string }.

Record File := mkFile { file_name : string; file_type : string; file_size : Z }.

Inductive Status := Idle | Pending | Converting | Completed | Error.

Global Instance Status_eq_dec : EqDecision Status.
Proof. solve_decision. Defined.

Record ProcessedImage := mkImage {
  id : string;
  originalFile : File;
  status : Status;
  webpBlob : option Blob;
  webpUrl : option string;
  originalSize : Z;
  newSize : option Z;
  error : option string;
  progress : option Z;
  delayDuration : option Z;
  targetQuality : option Q
}.

(** [Partial<ProcessedImage>]: a property is absent ([None]) or present; an
    optional property that is present may hold [undefined] ([Some None]), as
    in [{ error: undefined }]. *)
Module Partial.
Record t := mk {
  id : option string;
  originalFile : option File;
  status : option Status;
  webpBlob : option (option Blob);
  webpUrl : option (option string);
  originalSize : option Z;
  newSize : option (option Z);
  error : option (option string);
  progress : option (option Z);
  delayDuration : option (option Z);
  targetQuality : option (option Q)
}.

Definition empty : t :=
  mk None None None None None None None None None None None.
End Partial.

(** Object spread [{ ...img, ...updates }]. *)
Definition spread (img : ProcessedImage) (updates : Partial.t) : ProcessedImage :=
  {| id := default (id img) (Partial.id updates);
     originalFile := default (originalFile img) (Partial.originalFile updates);
     status := default (status img) (Partial.status updates);
     webpBlob := default (webpBlob img) (Partial.webpBlob updates);
     webpUrl := default (webpUrl img) (Partial.webpUrl updates);
     originalSize := default (originalSize img) (Partial.originalSize updates);
     newSize := default (newSize img) (Partial.newSize updates);
     error := default (error img) (Partial.error updates);
     progress := default (progress img) (Partial.progress updates);
     delayDuration := default (delayDuration img) (Partial.delayDuration updates);
     targetQuality := default (targetQuality img) (Partial.targetQuality updates) |}.

(** ** Batch handlers ([App]) *)

(** [handleFilesAdded], as the updater it passes to [setImages]. *)
Definition handleFilesAdded (globalQuality : Q) (newFiles : list ProcessedImage)
    (currentImages : list ProcessedImage) : list ProcessedImage :=
  let effectiveQuality := globalQuality in
  let totalNew := Z.of_nat (length newFiles) in
  let delay := Z.min 20000 (3000 + totalNew * 1000) in
  let filesWithSettings :=
    (λ f, {| id := id f; originalFile := originalFile f; status := status f;
             webpBlob := webpBlob f; webpUrl := webpUrl f;
             originalSize := originalSize f; newSize := newSize f;
             error := error f; progress := progress f;
             delayDuration := Some delay;
             targetQuality := Some effectiveQuality |}) <$> newFiles in
  currentImages ++ filesWithSettings.

Definition handleStartConversion (prev : list ProcessedImage) : list ProcessedImage :=
  (λ img, if decide (status img = Idle)
          then spread img {| Partial.id := None; Partial.originalFile := None;
                             Partial.status := Some Pending;
                             Partial.webpBlob := None; Partial.webpUrl := None;
                             Partial.originalSize := None; Partial.newSize := None;
                             Partial.error := None; Partial.progress := None;
                             Partial.delayDuration := None;
                             Partial.targetQuality := None |}
          else img) <$> prev.

Definition handleUpdateImage (i : string) (updates : Partial.t)
    (prev : list ProcessedImage) : list ProcessedImage :=
  (λ img, if decide (id img = i) then spread img updates else img) <$> prev.

Definition handleRetry (i : string) (prev : list ProcessedImage) : list ProcessedImage :=
  (λ img, if decide (id img = i)
          then {| id := id img; originalFile := originalFile img;
                  status := Pending;
                  webpBlob := webpBlob img; webpUrl := webpUrl img;
                  originalSize := originalSize img; newSize := newSize img;
                  error := None;
                  progress := Some 0;
                  delayDuration := Some 3000;
                  targetQuality := targetQuality img |}
          else img) <$> prev.

Definition handleClearCompleted (prev : list ProcessedImage) : list ProcessedImage :=
  filter (λ img, status img ≠ Completed) prev.

Definition handleClearErrors (prev : list ProcessedImage) : list ProcessedImage :=
  filter (λ img, status img ≠ Error) prev.

(** ** Ingestion ([DropZone.processFiles]) *)

Definition isJpeg (file : File) : bool :=
  String.eqb (file_type file) "image/jpeg"
  || endsWith (toLowerCase (file_name file)) ".jpg"
  || endsWith (toLowerCase (file_name file)) ".jpeg".

Definition isPng (file : File) : bool :=
  String.eqb (file_type file) "image/png"
  || endsWith (toLowerCase (file_name file)) ".png".

(** What one call of [processFiles] does: the two local accumulators, the
    text left in the component's [error] state, the items built, and the
    argument of [onFilesAdded] when the callback is called. *)
Record Ingestion := mkIngestion {
  validFiles : list File;
  invalidCount : Z;
  errorText : option string;
  newImages : list ProcessedImage;
  onFilesAdded : option (list ProcessedImage)
}.

Section Ingest.
(** [generateId] lives in [utils/format], outside the sources at hand: the
    [k]-th identifier it hands out is [generateId k]. *)
Variable generateId : nat → string.

Definition processFiles (generated : nat) (fileList : option (list File))
    : option Ingestion :=
  match fileList with
  | None => None
  | Some filesArray =>
      let validFiles := filter (λ file, isJpeg file || isPng file) filesArray in
      let invalidCount :=
        Z.of_nat (length (filter (λ file, ¬ (isJpeg file || isPng file)) filesArray)) in
      let errorText :=
        if 0 <? invalidCount
        then Some (pretty invalidCount +:+ " file"
                   +:+ (if 1 <? invalidCount then "s" else "")
                   +:+ " ignored. Only JPG and PNG files are supported.")
        else None in
      let newImages :=
        imap (λ k file,
                {| id := generateId (generated + k)%nat;
                   originalFile := file;
                   status := Idle;
                   webpBlob := None; webpUrl := None;
                   originalSize := file_size file;
                   newSize := None; error := None; progress := None;
                   delayDuration := None; targetQuality := None |})
             validFiles in
      Some {| validFiles := validFiles;
              invalidCount := invalidCount;
              errorText := errorText;
              newImages := newImages;
              onFilesAdded :=
                if 0 <? Z.of_nat (length newImages) then Some newImages else None |}
  end.
End Ingest.

(** ** Conversion engine ([convertToWebP]) *)

(** [Math.round (n / d)] for a positive denominator: the nearest integer,
    halves going up.  The source computes in doubles; the quotients it rounds
    here have small integer numerators and denominators, for which the double
    result is the same integer as this exact one. *)
Definition roundDiv (n d : Z) : Z := (2 * n + d) / (2 * d).

(** [Math.ceil (n / d)] for a positive denominator. *)
Definition ceilDiv (n d : Z) : Z := - ((- n) / d).

Record ProgressEvent := mkProgressEvent {
  lengthComputable : bool;
  loaded : Z;
  total : Z
}.

(** How the [FileReader] ends: [onerror], or [onload] with
    [event.target?.result] (absent, or a data URL). *)
Inductive ReadOutcome :=
| ReadError
| ReadLoad (result : option string).

(** The browser's side of one conversion: the progress events of the reader
    and how it ends, whether the image element loads, whether the canvas
    gives a 2D context, and the encoder. *)
Record Platform := mkPlatform {
  progressEvents : list ProgressEvent;
  readOutcome : ReadOutcome;
  imageLoads : bool;
  getContext : bool;
  toBlob : Q → option Blob;
  createObjectURL : Blob → string
}.

Inductive Settled :=
| Resolved (blob : Blob)
| Rejected (message : string).

(** [reader.onprogress]. *)
Definition onprogress (e : ProgressEvent) : list Z :=
  if lengthComputable e then [roundDiv (loaded e * 10) (total e)] else [].

Definition startProgress : Z := 15.
Definition endProgress : Z := 98.
Definition range : Z := endProgress - startProgress.
Definition updateInterval : Z := 100.

(** The value the timer callback computes at its [updates]-th run:
    [Math.min(endProgress, Math.round(startProgress + (updates / totalUpdates) * range))]. *)
Definition totalProgress (totalUpdates updates : Z) : Z :=
  Z.min endProgress (roundDiv (startProgress * totalUpdates + updates * range) totalUpdates).

(** The runs of the [setInterval] callback, from the value [updates] has
    before a run until [clearInterval]; each run reports one value. *)
Equations? timer (totalUpdates updates : Z) : list Z
  by wf (Z.to_nat (totalUpdates - updates)) lt :=
  timer totalUpdates updates with decide (totalUpdates <= updates + 1) => {
    | left _ := [99];
    | right _ := totalProgress totalUpdates (updates + 1)
                 :: timer totalUpdates (updates + 1) }.
Proof. lia. Qed.

(** A truthy string: present and not empty. *)
Definition truthy (s : option string) : bool :=
  match s with
  | Some r => negb (String.eqb r "")
  | None => false
  end.

(** [convertToWebP]: the values passed to [onProgress], in order, and how the
    promise settles. *)
Definition convertToWebP (env : Platform) (file : File) (quality : Q) (duration : Z)
    : list Z * Settled :=
  let reading := 0 :: (progressEvents env ≫= onprogress) in
  match readOutcome env with
  | ReadError => (reading, Rejected "Failed to read file")
  | ReadLoad result =>
      let buffered := reading ++ [12] in
      if negb (truthy result) then (buffered, Rejected "FileReader result is empty")
      else if negb (imageLoads env) then (buffered, Rejected "Failed to load image")
      else
        let decoded := buffered ++ [15] in
        if negb (getContext env) then (decoded, Rejected "Could not get canvas context")
        else
          let totalUpdates := ceilDiv duration updateInterval in
          let ticked := decoded ++ timer totalUpdates 0 in
          match toBlob env quality with
          | Some blob => (ticked ++ [100], Resolved blob)
          | None => (ticked, Rejected "Conversion failed")
          end
  end.

(** ** Row orchestration ([ImageRow]) *)

Definition updateProgress (p : Z) : Partial.t :=
  {| Partial.id := None; Partial.originalFile := None; Partial.status := None;
     Partial.webpBlob := None; Partial.webpUrl := None;
     Partial.originalSize := None; Partial.newSize := None;
     Partial.error := None; Partial.progress := Some (Some p);
     Partial.delayDuration := None; Partial.targetQuality := None |}.

Definition updateConverting : Partial.t :=
  {| Partial.id := None; Partial.originalFile := None;
     Partial.status := Some Converting;
     Partial.webpBlob := None; Partial.webpUrl := None;
     Partial.originalSize := None; Partial.newSize := None;
     Partial.error := Some None; Partial.progress := Some (Some 0);
     Partial.delayDuration := None; Partial.targetQuality := None |}.

Definition updateCompleted (blob : Blob) (url : string) : Partial.t :=
  {| Partial.id := None; Partial.originalFile := None;
     Partial.status := Some Completed;
     Partial.webpBlob := Some (Some blob); Partial.webpUrl := Some (Some url);
     Partial.originalSize := None; Partial.newSize := Some (Some (blob_size blob));
     Partial.error := None; Partial.progress := Some (Some 100);
     Partial.delayDuration := None; Partial.targetQuality := None |}.

Definition updateError (message : string) : Partial.t :=
  {| Partial.id := None; Partial.originalFile := None;
     Partial.status := Some Error;
     Partial.webpBlob := None; Partial.webpUrl := None;
     Partial.originalSize := None; Partial.newSize := None;
     Partial.error := Some (Some message); Partial.progress := None;
     Partial.delayDuration := None; Partial.targetQuality := None |}.

(** [item.targetQuality || 0.8] and [item.delayDuration || 3000]. *)
Definition qualityToUse (item : ProcessedImage) : Q :=
  match targetQuality item with
  | Some q => if Qeq_bool q 0 then (8 # 10)%Q else q
  | None => (8 # 10)%Q
  end.

Definition durationToUse (item : ProcessedImage) : Z :=
  match delayDuration item with
  | Some d => if d =? 0 then 3000 else d
  | None => 3000
  end.

(** How [convert] ends: the update of its [try] or of its [catch]. *)
Definition settle (env : Platform) (outcome : Settled) : Partial.t :=
  match outcome with
  | Resolved blob => updateCompleted blob (createObjectURL env blob)
  | Rejected message => updateError message
  end.

(** The [onUpdate] calls of [convert] that follow its first one: one per
    reported percent, then the final one. *)
Definition convertUpdates (env : Platform) (item : ProcessedImage) : list Partial.t :=
  let '(reported, outcome) :=
    convertToWebP env (originalFile item) (qualityToUse item) (durationToUse item) in
  (updateProgress <$> reported) ++ [settle env outcome].

(** All the [onUpdate] calls of one run of [convert], in order. *)
Definition convert (env : Platform) (item : ProcessedImage) : list Partial.t :=
  updateConverting :: convertUpdates env item.

(** ** The session: the store and the running conversions *)

(** [images] and [globalQuality] are the state of [App]; [inflight] maps the
    id of a row whose [processingRef] is set to the [onUpdate] calls its
    running [convert] has yet to make; [generated] counts the identifiers
    handed out; [dropError] is the [error] state of the drop zone. *)
Record Session := mkSession {
  images : list ProcessedImage;
  globalQuality : Q;
  inflight : gmap string (list Partial.t);
  generated : nat;
  dropError : option string
}.

Definition initial : Session :=
  {| images := []; globalQuality := (8 # 10)%Q; inflight := ∅;
     generated := 0%nat; dropError := None |}.

(** What can happen to a session. *)
Inductive Command :=
| Drop (fileList : list File)
| SetGlobalQuality (q : Q)
| StartConversion
| Spawn (i : string) (env : Platform)
| Deliver (i : string)
| Retry (i : string)
| ClearCompleted
| ClearErrors.

(** The item a row with key [i] renders. *)
Definition row (i : string) (imgs : list ProcessedImage) : option ProcessedImage :=
  head (filter (λ img, id img = i) imgs).

(** The reader reports the bytes read so far out of the size of the file:
    every event with a computable length has the file's size as [total], a
    positive one, and [loaded] grows from event to event up to [total]. *)
Fixpoint readsInOrder (size from : Z) (events : list ProgressEvent) : bool :=
  match events with
  | [] => true
  | e :: rest =>
      if lengthComputable e
      then (0 <? size) && (total e =? size) && (from <=? loaded e)
           && (loaded e <=? size) && readsInOrder size (loaded e) rest
      else readsInOrder size from rest
  end.

Definition wellBehaved (env : Platform) (file : File) : bool :=
  readsInOrder (file_size file) 0 (progressEvents env).

Section Run.
Variable generateId : nat → string.

(** When a command can happen: the row effect starts [convert] for a
    pending item that is not being processed; a running [convert] makes its
    next [onUpdate] call; the Retry button is the action rendered for an
    item in error. *)
Definition enabled (c : Command) (s : Session) : bool :=
  match c with
  | Spawn i env =>
      match row i (images s) with
      | Some item =>
          bool_decide (status item = Pending)
          && bool_decide (inflight s !! i = None)
          && wellBehaved env (originalFile item)
      | None => false
      end
  | Deliver i =>
      match inflight s !! i with
      | Some (_ :: _) => true
      | _ => false
      end
  | Retry i =>
      match row i (images s) with
      | Some item => bool_decide (status item = Error)
      | None => false
      end
  | _ => true
  end.

Definition exec (c : Command) (s : Session) : Session :=
  match c with
  | Drop fileList =>
      match processFiles generateId (generated s) (Some fileList) with
      | Some r =>
          {| images := match onFilesAdded r with
                       | Some newFiles =>
                           handleFilesAdded (globalQuality s) newFiles (images s)
                       | None => images s
                       end;
             globalQuality := globalQuality s;
             inflight := inflight s;
             generated := (generated s + length (validFiles r))%nat;
             dropError := errorText r |}
      | None => s
      end
  | SetGlobalQuality q =>
      {| images := images s; globalQuality := q; inflight := inflight s;
         generated := generated s; dropError := dropError s |}
  | StartConversion =>
      {| images := handleStartConversion (images s);
         globalQuality := globalQuality s; inflight := inflight s;
         generated := generated s; dropError := dropError s |}
  | Spawn i env =>
      match row i (images s) with
      | Some item =>
          {| images := handleUpdateImage (id item) updateConverting (images s);
             globalQuality := globalQuality s;
             inflight := <[i := convertUpdates env item]> (inflight s);
             generated := generated s; dropError := dropError s |}
      | None => s
      end
  | Deliver i =>
      match inflight s !! i with
      | Some (updates :: rest) =>
          {| images := handleUpdateImage i updates (images s);
             globalQuality := globalQuality s;
             inflight := match rest with
                         | [] => delete i (inflight s)
                         | _ => <[i := rest]> (inflight s)
                         end;
             generated := generated s; dropError := dropError s |}
      | _ => s
      end
  | Retry i =>
      {| images := handleRetry i (images s);
         globalQuality := globalQuality s; inflight := inflight s;
         generated := generated s; dropError := dropError s |}
  | ClearCompleted =>
      {| images := handleClearCompleted (images s);
         globalQuality := globalQuality s; inflight := inflight s;
         generated := generated s; dropError := dropError s |}
  | ClearErrors =>
      {| images := handleClearErrors (images s);
         globalQuality := globalQuality s; inflight := inflight s;
         generated := generated s; dropError := dropError s |}
  end.

Inductive reachable : Session → Prop :=
| reachable_initial : reachable initial
| reachable_exec s c : reachable s → enabled c s = true → reachable (exec c s).

(** Running a list of commands, each one enabled when its turn comes. *)
Fixpoint run (cs : list Command) (s : Session) : option Session :=
  match cs with
  | [] => Some s
  | c :: rest => if enabled c s then run rest (exec c s) else None
  end.
End Run.

(** The edges of the life cycle of an item. *)
Inductive edge : Status → Status → Prop :=
| edge_start : edge Idle Pending
| edge_spawn : edge Pending Converting
| edge_done : edge Converting Completed
| edge_fail : edge Converting Error
| edge_retry : edge Error Pending.

(** ** Export ([handleDownloadAll]) *)

(** The [while (usedNames.has(fileName))] loop, [fuel] bounding its runs. *)
Fixpoint whileUsed (fuel : nat) (usedNames : gset string) (baseName fileName : string)
    (counter : Z) : option string :=
  match fuel with
  | O => None
  | S fuel' =>
      if decide (fileName ∈ usedNames)
      then whileUsed fuel' usedNames baseName
             (baseName +:+ "_" +:+ pretty counter +:+ ".webp") (counter + 1)
      else Some fileName
  end.

(** The name an item gets: more runs than there are used names are never
    needed (see [entryName_total]). *)
Definition entryName (usedNames : gset string) (img : ProcessedImage) : option string :=
  let baseName := stripExtension (file_name (originalFile img)) in
  whileUsed (S (size usedNames)) usedNames baseName (baseName +:+ ".webp") 1.

(** The body of [completedImages.forEach], threaded through the list; the
    archive is the list of the [zip.file] calls.  An item without a blob does
    not pass the filter of [handleDownloadAll]. *)
Fixpoint forEachCompleted (completedImages : list ProcessedImage)
    (usedNames : gset string) (zip : list (string * Blob))
    : option (list (string * Blob)) :=
  match completedImages with
  | [] => Some zip
  | img :: rest =>
      match entryName usedNames img, webpBlob img with
      | Some fileName, Some blob =>
          forEachCompleted rest ({[fileName]} ∪ usedNames) (zip ++ [(fileName, blob)])
      | _, _ => None
      end
  end.

(** What the [try] block meets: nothing, an exception while the archive is
    generated, or one while it is handed to the download link. *)
Inductive Fault := NoFault | GenerateThrows | DownloadThrows.

(** What the export can read and touch: the store behind [imagesRef], the
    downloads started, the [alert]s shown and the errors logged. *)
Record Page := mkPage {
  imagesRef : list ProcessedImage;
  downloads : list (string * list (string * Blob));
  alerts : list string;
  consoleErrors : nat
}.

Definition handleDownloadAll (fault : Fault) (now : Z) (page : Page) : option Page :=
  let currentImages := imagesRef page in
  let completedImages :=
    filter (λ img : ProcessedImage, status img = Completed ∧ is_Some (webpBlob img))
           currentImages in
  if decide (length completedImages = 0%nat) then Some page
  else
    match forEachCompleted completedImages ∅ [] with
    | None => None
    | Some zip =>
        match fault with
        | NoFault =>
            Some {| imagesRef := imagesRef page;
                    downloads := downloads page
                      ++ [("LocalWebP_converted_" +:+ pretty now +:+ ".zip", zip)];
                    alerts := alerts page;
                    consoleErrors := consoleErrors page |}
        | _ =>
            Some {| imagesRef := imagesRef page;
                    downloads := downloads page;
                    alerts := alerts page
                      ++ ["Failed to create zip file. Please try downloading images individually."];
                    consoleErrors := S (consoleErrors page) |}
        end
    end.

(** ** Vocabulary of the statements *)

(** A filename has an extension when, in lower case, it ends with it. *)
Definition hasExtension (name ext : string) : Prop :=
  ∃ stem, toLowerCase name = stem +:+ ext.

(** The two supported raster types, by declared type or by extension. *)
Definition supported (file : File) : Prop :=
  (file_type file = "image/jpeg"
   ∨ hasExtension (file_name file) ".jpg"
   ∨ hasExtension (file_name file) ".jpeg")
  ∨ (file_type file = "image/png"
     ∨ hasExtension (file_name file) ".png").

(** The percents reported while the source is read. *)
Definition readPercents (env : Platform) : list Z :=
  progressEvents env ≫= onprogress.

(** The percents reported by the runs of the timer before its last one:
    run [k] of [totalUpdates] reports
    [min(98, round(15 + 83 * k / totalUpdates))]. *)
Definition climb (totalUpdates : Z) : list Z :=
  totalProgress totalUpdates <$> seqZ 1 (totalUpdates - 1).

(** A list of percents that never decreases and stays between two bounds. *)
Definition within (lo hi : Z) (l : list Z) : Prop :=
  StronglySorted Z.le l ∧ Forall (λ p, lo ≤ p ≤ hi) l.

(** What is left of an attempt whose last reported percent is [cur]: the
    percents still to report never decrease from [cur]; in an attempt that
    succeeds 100 is the last of them and the only one, and in one that fails
    100 is never reached. *)
Definition ascending (cur : Z) (reports : list Z) (succeeds : bool) : Prop :=
  0 ≤ cur
  ∧ StronglySorted Z.le (cur :: reports)
  ∧ if succeeds
    then (reports = [] ∧ cur = 100)
         ∨ (∃ pre, reports = pre ++ [100] ∧ Forall (λ p, p < 100) (cur :: pre))
    else Forall (λ p, p < 100) (cur :: reports).

Definition resolved (outcome : Settled) : bool :=
  match outcome with
  | Resolved _ => true
  | Rejected _ => false
  end.

(** The names tried for an item, in order: [base.webp], [base_1.webp],
    [base_2.webp], ... *)
Definition candidate (baseName : string) (j : nat) : string :=
  match j with
  | O => baseName +:+ ".webp"
  | S _ => baseName +:+ "_" +:+ pretty (Z.of_nat j) +:+ ".webp"
  end.

(** A string without dot and without slash: what may follow the last dot of
    a name for it to be its extension. *)
Definition plain (s : string) : Prop :=
  ∀ c, c ∈ String.list_ascii_of_string s → c ≠ "."%char ∧ c ≠ "/"%char.

(** The filter of [handleDownloadAll]. *)
Abbreviation exportable :=
  (λ img : ProcessedImage, status img = Completed ∧ is_Some (webpBlob img)).

(** ** What holds of every session that can be reached *)

(** A running [convert] of the row of [img]: the calls it has yet to make
    report percents that go on from the progress of the item, then settle. *)
Definition running (img : ProcessedImage) (updates : list Partial.t) : Prop :=
  ∃ cur reports env outcome,
    progress img = Some cur
    ∧ updates = (updateProgress <$> reports) ++ [settle env outcome]
    ∧ ascending cur reports (resolved outcome).

(** What the status of an item says about its progress and about its row. *)
Definition consistent (running_of : gmap string (list Partial.t))
    (img : ProcessedImage) : Prop :=
  match status img with
  | Idle => progress img = None ∧ running_of !! id img = None
  | Pending =>
      (progress img = None ∨ progress img = Some 0) ∧ running_of !! id img = None
  | Converting => ∃ updates, running_of !! id img = Some updates ∧ running img updates
  | Completed => progress img = Some 100 ∧ running_of !! id img = None
  | Error =>
      (∃ p, progress img = Some p ∧ p < 100) ∧ running_of !! id img = None
  end.

Section Invariant.
Variable generateId : nat → string.

Record invariant (s : Session) : Prop := mkInvariant {
  inv_nodup : NoDup (id <$> images s);
  inv_generated :
    ∀ img, img ∈ images s → ∃ k, (k < generated s)%nat ∧ id img = generateId k;
  inv_consistent : Forall (consistent (inflight s)) (images s);
  inv_rows : ∀ i, is_Some (inflight s !! i) → i ∈ id <$> images s
}.
End Invariant.

(** The percent a row shows: [item.progress || 0]. *)
Definition shown (img : ProcessedImage) : Z := default 0 (progress img).

(** How a command changes an item it touches: the status follows an edge of
    the life cycle, or stays [Converting] while a percent is reported; and the
    shown percent does not go down, except that Retry on an item in error
    makes it pending with progress 0. *)
Definition moved (c : Command) (img img' : ProcessedImage) : Prop :=
  (edge (status img) (status img')
   ∨ (status img = Converting ∧ status img' = Converting))
  ∧ (shown img ≤ shown img'
     ∨ (c = Retry (id img) ∧ status img = Error ∧ status img' = Pending
        ∧ progress img' = Some 0)).

(** ** A small session, for the examples *)

Definition exampleId (k : nat) : string := pretty k.

Definition photo : File :=
  {| file_name := "photo.jpg"; file_type := "image/jpeg"; file_size := 2048 |}.

Definition notes : File :=
  {| file_name := "notes.txt"; file_type := "text/plain"; file_size := 10 |}.

Definition webp : Blob := {| blob_size := 512; blob_type := "image/webp" |}.

(** A browser that reads [photo] in two chunks, decodes it and encodes it. *)
Definition browser : Platform :=
  {| progressEvents := [ {| lengthComputable := true; loaded := 1024; total := 2048 |};
                         {| lengthComputable := true; loaded := 2048; total := 2048 |} ];
     readOutcome := ReadLoad (Some "data:image/jpeg;base64,AAAA");
     imageLoads := true;
     getContext := true;
     toBlob := λ _, Some webp;
     createObjectURL := λ _, "blob:1" |}.

(** The same browser when the canvas gives no 2D context. *)
Definition noContext : Platform :=
  {| progressEvents := progressEvents browser;
     readOutcome := readOutcome browser;
     imageLoads := true;
     getContext := false;
     toBlob := toBlob browser;
     createObjectURL := createObjectURL browser |}.

(** [photo] is dropped, the conversion is started, and the row of the item
    makes [n] of its updates after the first. *)
Definition converted (n : nat) : list Command :=
  [Drop [photo; notes]; StartConversion; Spawn "0" browser] ++ replicate n (Deliver "0").

(** An item as the store holds it once [photo] is converted. *)
Definition done (i : string) : ProcessedImage :=
  {| id := i; originalFile := photo; status := Completed;
     webpBlob := Some webp; webpUrl := Some "blob:1";
     originalSize := 2048; newSize := Some 512; error := None;
     progress := Some 100; delayDuration := Some 4000;
     targetQuality := Some (8 # 10)%Q |}.

(** [photo] is dropped and started in a browser whose canvas gives no 2D
    context: after six updates the item is in error. *)
Definition failed : list Command :=
  [Drop [photo; notes]; StartConversion; Spawn "0" noContext] ++ replicate 6 (Deliver "0").

(** ** The rest of the row ([ImageRow]) *)

Inductive FileType := JPG | PNG | OTHER.

Definition getFileType (file : File) : FileType :=
  let type := file_type file in
  if String.eqb type "image/jpeg" then JPG
  else if String.eqb type "image/png" then PNG
  else
    let name := toLowerCase (file_name file) in
    if endsWith name ".jpg" || endsWith name ".jpeg" then JPG
    else if endsWith name ".png" then PNG
    else OTHER.

(** [s.startsWith(prefix)] and [s.includes(sub)]. *)
Fixpoint startsWith (s prefix : string) : bool :=
  match prefix, s with
  | EmptyString, _ => true
  | String _ _, EmptyString => false
  | String c p, String c' s' => Ascii.eqb c c' && startsWith s' p
  end.

Fixpoint includes (s sub : string) : bool :=
  if startsWith s sub then true
  else match s with
       | EmptyString => false
       | String _ r => includes r sub
       end.

Definition getFriendlyErrorMessage (error : string) : string :=
  let e := toLowerCase error in
  if includes e "load image" then "Corrupt/Unsupported File"
  else if includes e "context" || includes e "canvas" then "Browser Memory Full"
  else if includes e "timeout" then "Processing Timed Out"
  else error.

(** [handleDownload]: the [download] attribute of the link it clicks, when
    the item has a URL. *)
Definition handleDownload (item : ProcessedImage) : option string :=
  if truthy (webpUrl item)
  then
    let originalName := stripExtension (file_name (originalFile item)) in
    Some (originalName +:+ ".webp")
  else None.

(** ** The rest of [App] *)


(** The derived counts of [App]. *)
Definition isProcessing (imgs : list ProcessedImage) : bool :=
  existsb (λ img, bool_decide (status img = Pending)
                  || bool_decide (status img = Converting)) imgs.

Definition failedCount (imgs : list ProcessedImage) : nat :=
  length (filter (λ img, status img = Error) imgs).

Definition idleCount (imgs : list ProcessedImage) : nat :=
  length (filter (λ img, status img = Idle) imgs).

Definition completedCount (imgs : list ProcessedImage) : nat :=
  length (filter (λ img, status img = Completed) imgs).

(** The [hasIdle] test of the keyboard shortcut. *)
Definition hasIdle (imgs : list ProcessedImage) : bool :=
  existsb (λ img, bool_decide (status img = Idle)) imgs.

(** ** More vocabulary *)

(** The messages with which [convertToWebP] rejects. *)
Definition rejections : list string :=
  [ "Failed to read file"; "FileReader result is empty"; "Failed to load image";
    "Could not get canvas context"; "Conversion failed" ].

(** What the status of an item says about its result and its error. *)
Definition settledFields (img : ProcessedImage) : Prop :=
  (is_Some (webpBlob img) ↔ status img = Completed)
  ∧ (is_Some (error img) ↔ status img = Error)
  ∧ (status img = Completed →
     ∃ blob url, webpBlob img = Some blob ∧ webpUrl img = Some url
                 ∧ newSize img = Some (blob_size blob)).

(** * Properties *)

(** ** The per-item patch operations *)

Lemma spread_nothing img : spread img Partial.empty = img.
Proof. by destruct img. Qed.

Lemma handleUpdateImage_length i updates prev :
  length (handleUpdateImage i updates prev) = length prev.
Proof. apply length_fmap. Qed.

Lemma handleUpdateImage_lookup i updates prev k :
  handleUpdateImage i updates prev !! k
  = (λ img, if decide (id img = i) then spread img updates else img) <$> prev !! k.
Proof. apply list_lookup_fmap. Qed.

Lemma handleUpdateImage_absent i updates prev :
  (∀ img, img ∈ prev → id img ≠ i) → handleUpdateImage i updates prev = prev.
Proof.
  induction prev as [|img prev IH]; intros Hno; [done|].
  unfold handleUpdateImage in *. cbn [fmap list_fmap].
  rewrite decide_False by (apply Hno; left).
  f_equal. apply IH. intros img' Hin. apply Hno. by right.
Qed.

(** C10.  [handleUpdateImage] keeps the length of the list and the position
    of every item; an item whose id differs from the given one is left as it
    is, and a list in which no item has the given id is returned unchanged. *)
Theorem handleUpdateImage_frame (i : string) (updates : Partial.t)
    (prev : list ProcessedImage) :
  length (handleUpdateImage i updates prev) = length prev
  ∧ (∀ k img, prev !! k = Some img →
       handleUpdateImage i updates prev !! k
       = Some (if decide (id img = i) then spread img updates else img))
  ∧ (∀ k img, prev !! k = Some img → id img ≠ i →
       handleUpdateImage i updates prev !! k = Some img)
  ∧ (∀ k, prev !! k = None → handleUpdateImage i updates prev !! k = None)
  ∧ ((∀ img, img ∈ prev → id img ≠ i) → handleUpdateImage i updates prev = prev).
Proof.
  split_and!.
  - apply handleUpdateImage_length.
  - intros k img Hk. by rewrite handleUpdateImage_lookup, Hk.
  - intros k img Hk Hne. rewrite handleUpdateImage_lookup, Hk. cbn.
    by rewrite decide_False.
  - intros k Hk. by rewrite handleUpdateImage_lookup, Hk.
  - apply handleUpdateImage_absent.
Qed.

(** C4.  [handleRetry] turns every item with the given id into a pending one
    with no error, progress 0 and a delay of 3000 ms, keeping its quality and
    all its other fields; every other item, and the length and order of the
    list, stay as they are. *)
Theorem handleRetry_resets (i : string) (prev : list ProcessedImage) :
  length (handleRetry i prev) = length prev
  ∧ (∀ k img, prev !! k = Some img → id img = i →
       ∃ img', handleRetry i prev !! k = Some img'
         ∧ status img' = Pending
         ∧ error img' = None
         ∧ progress img' = Some 0
         ∧ delayDuration img' = Some 3000
         ∧ targetQuality img' = targetQuality img
         ∧ id img' = id img
         ∧ originalFile img' = originalFile img
         ∧ originalSize img' = originalSize img
         ∧ webpBlob img' = webpBlob img
         ∧ webpUrl img' = webpUrl img
         ∧ newSize img' = newSize img)
  ∧ (∀ k img, prev !! k = Some img → id img ≠ i →
       handleRetry i prev !! k = Some img).
Proof.
  unfold handleRetry. split_and!.
  - apply length_fmap.
  - intros k img Hk Hid. rewrite list_lookup_fmap, Hk. cbn.
    rewrite decide_True by done. eexists. split; [done|]. by cbn.
  - intros k img Hk Hne. rewrite list_lookup_fmap, Hk. cbn.
    by rewrite decide_False.
Qed.

(** C3.  [handleFilesAdded] appends the new items to the list, each with the
    delay [min(20000, 3000 + 1000 * n)] for the number [n] of new items: 6000
    for three of them, the cap 20000 for twenty-five. *)
Theorem handleFilesAdded_delay (q : Q) (newFiles currentImages : list ProcessedImage) :
  ∃ added,
    handleFilesAdded q newFiles currentImages = currentImages ++ added
    ∧ length added = length newFiles
    ∧ Forall (λ img, delayDuration img
                     = Some (Z.min 20000 (3000 + 1000 * Z.of_nat (length newFiles))))
             added
    ∧ (length newFiles = 3%nat →
         Forall (λ img, delayDuration img = Some 6000) added)
    ∧ (length newFiles = 25%nat →
         Forall (λ img, delayDuration img = Some 20000) added).
Proof.
  unfold handleFilesAdded. eexists. split; [reflexivity|].
  assert (∀ d, Forall (λ img, delayDuration img = Some d)
    ((λ f, {| id := id f; originalFile := originalFile f; status := status f;
              webpBlob := webpBlob f; webpUrl := webpUrl f;
              originalSize := originalSize f; newSize := newSize f;
              error := error f; progress := progress f;
              delayDuration := Some d; targetQuality := Some q |}) <$> newFiles))
    as Hall.
  { intros d. apply Forall_fmap, Forall_forall. by intros. }
  split_and!.
  - apply length_fmap.
  - replace (1000 * Z.of_nat (length newFiles)) with (Z.of_nat (length newFiles) * 1000)
      by lia.
    apply Hall.
  - intros ->. apply Hall.
  - intros ->. apply Hall.
Qed.

(** ** Ingestion *)

Lemma endsWith_spec s suffix :
  endsWith s suffix = true ↔ ∃ stem, s = stem +:+ suffix.
Proof.
  induction s as [|c r IH]; cbn [endsWith].
  - destruct (String.eqb_spec "" suffix) as [<-|Hne].
    + split; [by exists ""|done].
    + split; [done|]. intros [stem Hstem]. destruct stem; cbn in Hstem; [done|].
      discriminate.
  - destruct (String.eqb_spec (String c r) suffix) as [<-|Hne].
    + split; [by exists ""|done].
    + rewrite IH. split.
      * intros [stem ->]. by exists (String c stem).
      * intros [stem Hstem]. destruct stem as [|c' stem]; cbn in Hstem.
        -- by destruct Hne.
        -- injection Hstem as _ ->. by exists stem.
Qed.

Lemma accepted_supported file :
  isJpeg file || isPng file = true ↔ supported file.
Proof.
  unfold supported, hasExtension, isJpeg, isPng.
  rewrite !orb_true_iff, !endsWith_spec, !String.eqb_eq. tauto.
Qed.


Lemma imap_Forall {A B} (P : B → Prop) (f : nat → A → B) l :
  (∀ k x, P (f k x)) → Forall P (imap f l).
Proof.
  revert f. induction l as [|x l IH]; intros f Hf; cbn; constructor; [apply Hf|].
  apply IH. intros. apply Hf.
Qed.


Lemma handleFilesAdded_status q newFiles currentImages img :
  img ∈ handleFilesAdded q newFiles currentImages →
  img ∈ currentImages ∨ ∃ f, f ∈ newFiles ∧ status img = status f ∧ id img = id f
                              ∧ progress img = progress f.
Proof.
  unfold handleFilesAdded. rewrite elem_of_app, list_elem_of_fmap.
  intros [?|(f & -> & Hf)]; [by left|right]. by exists f.
Qed.

Section Ingestion.
Variable generateId : nat → string.

End Ingestion.

(** ** The conversion engine *)

Lemma roundDiv_mono n n' d : 0 < d → n ≤ n' → roundDiv n d ≤ roundDiv n' d.
Proof. intros. unfold roundDiv. apply Z.div_le_mono; lia. Qed.

Lemma roundDiv_exact k d : 0 < d → roundDiv (k * d) d = k.
Proof.
  intros. unfold roundDiv. symmetry. apply (Z.div_unique_pos _ _ _ d); lia.
Qed.

Lemma totalProgress_mono T u u' :
  0 < T → u ≤ u' → totalProgress T u ≤ totalProgress T u'.
Proof.
  intros. unfold totalProgress. apply Z.min_le_compat_l, roundDiv_mono; [done|].
  cbv [startProgress range endProgress]. lia.
Qed.

Lemma totalProgress_bounds T u :
  0 < T → 0 ≤ u → 15 ≤ totalProgress T u ≤ 98.
Proof.
  intros. unfold totalProgress, endProgress. split; [|lia].
  apply Z.min_glb; [lia|].
  rewrite <- (roundDiv_exact 15 T) at 1 by done.
  apply roundDiv_mono; [done|]. cbv [startProgress range endProgress]. lia.
Qed.

Lemma timer_last T u : T ≤ u + 1 → timer T u = [99].
Proof.
  intros. rewrite timer_equation_1.
  destruct (decide (T ≤ u + 1)); [done|lia].
Qed.

Lemma timer_next T u :
  u + 1 < T → timer T u = totalProgress T (u + 1) :: timer T (u + 1).
Proof.
  intros. rewrite timer_equation_1 at 1.
  destruct (decide (T ≤ u + 1)); [lia|done].
Qed.

Lemma timer_runs T u :
  timer T u = (totalProgress T <$> seqZ (u + 1) (T - u - 1)) ++ [99].
Proof.
  remember (Z.to_nat (T - u - 1)) as n eqn:Hn.
  revert u Hn. induction n as [|n IH]; intros u Hn.
  - rewrite timer_last, seqZ_nil by lia. done.
  - rewrite timer_next, seqZ_cons by lia. cbn. f_equal.
    rewrite IH by lia. do 3 f_equal; lia.
Qed.

Lemma timer_climb T : timer T 0 = climb T ++ [99].
Proof. rewrite timer_runs. unfold climb. do 3 f_equal. lia. Qed.

Lemma length_timer T : length (timer T 0) = Z.to_nat (Z.max 1 T).
Proof.
  rewrite timer_climb, length_app. unfold climb.
  rewrite length_fmap, length_seqZ. cbn. lia.
Qed.

Lemma seqZ_sorted m n : StronglySorted Z.le (seqZ m n).
Proof.
  remember (Z.to_nat n) as k eqn:Hk.
  revert m n Hk. induction k as [|k IH]; intros m n Hk.
  - rewrite seqZ_nil by lia. constructor.
  - rewrite seqZ_cons by lia. constructor; [apply IH; lia|].
    apply Forall_seqZ. intros. lia.
Qed.

Lemma climb_bounds T : Forall (λ p, 15 ≤ p ≤ 98) (climb T).
Proof.
  unfold climb. apply Forall_fmap, Forall_seqZ. intros u Hu. cbn.
  apply totalProgress_bounds; lia.
Qed.

Lemma climb_sorted T : StronglySorted Z.le (climb T).
Proof.
  unfold climb. destruct (decide (0 < T)).
  - eapply StronglySorted_fmap, seqZ_sorted. intros. by apply totalProgress_mono.
  - rewrite seqZ_nil by lia. constructor.
Qed.

Lemma lookup_climb T k :
  (S k < Z.to_nat T)%nat →
  climb T !! k = Some (totalProgress T (Z.of_nat (S k))).
Proof.
  intros. unfold climb. rewrite list_lookup_fmap, lookup_seqZ_lt by lia.
  cbn. do 2 f_equal. lia.
Qed.

Lemma percent_bounds l l' t :
  0 < t → 0 ≤ l → l ≤ l' → l' ≤ t →
  0 ≤ roundDiv (l * 10) t ∧ roundDiv (l * 10) t ≤ roundDiv (l' * 10) t
  ∧ roundDiv (l' * 10) t ≤ 10.
Proof.
  intros. split_and!.
  - unfold roundDiv. apply Z.div_pos; lia.
  - apply roundDiv_mono; lia.
  - rewrite <- (roundDiv_exact 10 t) at 2 by done. apply roundDiv_mono; lia.
Qed.

Lemma readsInOrder_percents size from events :
  0 ≤ from → readsInOrder size from events = true →
  StronglySorted Z.le (events ≫= onprogress)
  ∧ Forall (λ p, roundDiv (from * 10) size ≤ p ≤ 10) (events ≫= onprogress)
  ∧ (events ≫= onprogress ≠ [] → 0 < size ∧ from ≤ size).
Proof.
  revert from. induction events as [|e events IH]; intros from Hfrom Hwf.
  { split_and!; [constructor|constructor|done]. }
  cbn in Hwf |- *. unfold onprogress at 1 3 5.
  destruct (lengthComputable e); cbn; [|by apply IH].
  repeat (apply andb_true_iff in Hwf as [Hwf ?]).
  apply Z.ltb_lt in Hwf.
  assert (total e = size) as -> by by apply Z.eqb_eq.
  assert (from ≤ loaded e) by by apply Z.leb_le.
  assert (loaded e ≤ size) by by apply Z.leb_le.
  destruct (IH (loaded e)) as (Hs & Hb & _); [lia|done|].
  pose proof (percent_bounds from (loaded e) size) as (? & ? & ?); [lia..|].
  split_and!.
  - constructor; [done|]. eapply Forall_impl; [exact Hb|]. cbn. lia.
  - constructor; [lia|]. eapply Forall_impl; [exact Hb|]. cbn. lia.
  - intros _. lia.
Qed.

Lemma readPercents_ok env file :
  wellBehaved env file = true →
  StronglySorted Z.le (readPercents env)
  ∧ Forall (λ p, 0 ≤ p ≤ 10) (readPercents env).
Proof.
  intros Hwf. unfold wellBehaved in Hwf.
  apply readsInOrder_percents in Hwf as (Hs & Hb & Hne); [|done].
  split; [done|]. fold (readPercents env) in Hb, Hne.
  destruct (decide (readPercents env = [])) as [->|Hn]; [constructor|].
  apply Hne in Hn. eapply Forall_impl; [exact Hb|]. cbn. intros p [Hp ?].
  split; [|done]. etrans; [|exact Hp].
  unfold roundDiv. apply Z.div_pos; lia.
Qed.

Lemma within_app lo mid hi l l' :
  within lo mid l → within mid hi l' → lo ≤ mid → mid ≤ hi →
  within lo hi (l ++ l').
Proof.
  intros [Hs Hb] [Hs' Hb'] ??. split.
  - apply StronglySorted_app_2; [|done..].
    intros x y Hx Hy.
    rewrite Forall_forall in Hb, Hb'. specialize (Hb x Hx). specialize (Hb' y Hy).
    cbn in *. lia.
  - apply Forall_app. split; (eapply Forall_impl; [eassumption|]); cbn; lia.
Qed.

Lemma within_one lo hi x : lo ≤ x ≤ hi → within lo hi [x].
Proof. intros. split; repeat constructor; lia. Qed.

Lemma within_reading env file :
  wellBehaved env file = true → within 0 10 (0 :: readPercents env).
Proof.
  intros (Hs & Hb)%readPercents_ok. split.
  - constructor; [done|]. eapply Forall_impl; [exact Hb|]. cbn. lia.
  - constructor; [lia|done].
Qed.

Lemma within_timer T : within 15 99 (timer T 0).
Proof.
  rewrite timer_climb. apply (within_app _ 98); [|apply within_one|..]; try lia.
  split; [apply climb_sorted|apply climb_bounds].
Qed.

Lemma within_ascending_fail l :
  within 0 99 l → ascending 0 l false.
Proof.
  intros [Hs Hb]. split_and!; [done|..].
  - constructor; [done|]. eapply Forall_impl; [exact Hb|]. cbn. lia.
  - constructor; [lia|]. eapply Forall_impl; [exact Hb|]. cbn. lia.
Qed.

Lemma within_ascending_success l :
  within 0 99 l → ascending 0 (l ++ [100]) true.
Proof.
  intros Hl. destruct (within_app 0 99 100 l [100]) as [Hs Hb];
    [done|by apply within_one|lia..|].
  destruct Hl as [_ Hl]. split_and!; [done|..].
  - constructor; [done|]. eapply Forall_impl; [exact Hb|]. cbn. lia.
  - right. exists l. split; [done|]. constructor; [lia|].
    eapply Forall_impl; [exact Hl|]. cbn. lia.
Qed.

Lemma within_weaken lo hi hi' l : within lo hi l → hi ≤ hi' → within lo hi' l.
Proof.
  intros [Hs Hb] ?. split; [done|]. eapply Forall_impl; [exact Hb|]. cbn. lia.
Qed.

(** The reports of one call never decrease, start at 0 and end with 100
    exactly when the promise resolves. *)
Lemma convertToWebP_ascending env file q d :
  wellBehaved env file = true →
  ascending 0 (convertToWebP env file q d).1 (resolved (convertToWebP env file q d).2).
Proof.
  intros Hwf%within_reading. unfold convertToWebP.
  fold (readPercents env).
  assert (within 0 12 ((0 :: readPercents env) ++ [12])) as Hbuf.
  { apply (within_app _ 10); [done|by apply within_one|lia..]. }
  assert (within 0 15 (((0 :: readPercents env) ++ [12]) ++ [15])) as Hdec.
  { apply (within_app _ 12); [done|by apply within_one|lia..]. }
  destruct (readOutcome env) as [|result]; cbn [fst snd resolved].
  { apply within_ascending_fail. by eapply within_weaken. }
  destruct (truthy result); cbn [negb fst snd resolved];
    [|apply within_ascending_fail; by eapply within_weaken].
  destruct (imageLoads env); cbn [negb fst snd resolved];
    [|apply within_ascending_fail; by eapply within_weaken].
  destruct (getContext env); cbn [negb fst snd resolved];
    [|apply within_ascending_fail; by eapply within_weaken].
  assert (within 0 99 ((((0 :: readPercents env) ++ [12]) ++ [15])
                         ++ timer (ceilDiv d updateInterval) 0)) as Hticked.
  { apply (within_app _ 15); [done|apply within_timer|lia..]. }
  destruct (toBlob env q); cbn [fst snd resolved].
  - by apply within_ascending_success.
  - by apply within_ascending_fail.
Qed.

Lemma convertToWebP_drawn env file q d result :
  readOutcome env = ReadLoad result → truthy result = true →
  imageLoads env = true → getContext env = true →
  convertToWebP env file q d
  = (0 :: readPercents env ++ [12; 15] ++ climb (ceilDiv d 100) ++ [99]
       ++ match toBlob env q with Some _ => [100] | None => [] end,
     match toBlob env q with
     | Some blob => Resolved blob
     | None => Rejected "Conversion failed"
     end).
Proof.
  intros Hread Hres Himg Hctx. unfold convertToWebP.
  rewrite Hread, Hres, Himg, Hctx. cbn [negb]. unfold updateInterval.
  rewrite timer_climb. fold (readPercents env).
  destruct (toBlob env q); cbn; f_equal; f_equal;
    rewrite <- ?app_assoc; cbn; by rewrite <- ?app_assoc.
Qed.

(** Without a 2D context the reports stop at 15 and the promise rejects,
    whatever the source and the duration. *)
Lemma convertToWebP_no_context env file q d result :
  readOutcome env = ReadLoad result → truthy result = true →
  imageLoads env = true → getContext env = false →
  convertToWebP env file q d
  = (0 :: readPercents env ++ [12; 15], Rejected "Could not get canvas context").
Proof.
  intros Hread Hres Himg Hctx. unfold convertToWebP.
  rewrite Hread, Hres, Himg, Hctx. cbn [negb]. fold (readPercents env).
  by rewrite <- app_assoc.
Qed.

(** C1, as amended.  When the source is read and decoded and the canvas gives
    a 2D context, the reported percents are, in order: 0 and the percents of
    the read, 12, 15, one value [min(98, round(15 + 83 * k / n))] between 15
    and 98 for each of the first [n - 1] of the [n = ceil(d / 100)] runs of
    the timer, 99 at the last run, and 100 exactly when the encoder gives a
    blob. *)
Theorem convertToWebP_checkpoints (env : Platform) (file : File) (q : Q) (d : Z)
    (result : option string) :
  readOutcome env = ReadLoad result → truthy result = true →
  imageLoads env = true → getContext env = true →
  let n := ceilDiv d 100 in
  (convertToWebP env file q d).1
  = 0 :: readPercents env ++ [12; 15] ++ climb n ++ [99]
      ++ match toBlob env q with Some _ => [100] | None => [] end
  ∧ length (climb n) = Z.to_nat (n - 1)
  ∧ (∀ k, (S k < Z.to_nat n)%nat →
       climb n !! k
       = Some (Z.min 98 (roundDiv (15 * n + Z.of_nat (S k) * 83) n)))
  ∧ Forall (λ p, 15 ≤ p ≤ 98) (climb n)
  ∧ StronglySorted Z.le (climb n)
  ∧ length (timer n 0) = Z.to_nat (Z.max 1 n)
  ∧ (0 < d → Z.of_nat (length (timer n 0)) = n).
Proof.
  intros Hread Hres Himg Hctx n. split_and!.
  - by erewrite convertToWebP_drawn.
  - unfold climb. by rewrite length_fmap, length_seqZ.
  - intros k Hk. by rewrite lookup_climb.
  - apply climb_bounds.
  - apply climb_sorted.
  - apply length_timer.
  - intros Hd. rewrite length_timer.
    assert (1 ≤ n); [|lia]. unfold n, ceilDiv.
    assert (- d / 100 < 0); [|lia].
    apply Z.div_lt_upper_bound; lia.
Qed.

(** ** Export *)

Lemma string_length_app s t :
  String.length (s +:+ t) = (String.length s + String.length t)%nat.
Proof. induction s as [|c s IH]; simpl; [done|]. by f_equal. Qed.

Lemma string_app_inj_r t s1 s2 : s1 +:+ t = s2 +:+ t → s1 = s2.
Proof.
  revert s2. induction s1 as [|c s1 IH]; intros [|c' s2] Heq.
  - done.
  - apply (f_equal String.length) in Heq.
    rewrite !string_length_app in Heq. simpl in Heq. lia.
  - apply (f_equal String.length) in Heq.
    rewrite !string_length_app in Heq. simpl in Heq. lia.
  - simpl in Heq. injection Heq as -> Heq. f_equal. by apply IH.
Qed.

Global Instance candidate_inj baseName : Inj (=) (=) (candidate baseName).
Proof.
  intros [|j] [|j'] Heq; unfold candidate in Heq;
    apply (inj (String.app baseName)) in Heq; cbn in Heq; try done.
  injection Heq as Heq. change ("" +:+ ?x) with x in Heq.
  apply string_app_inj_r in Heq.
  apply (inj pretty) in Heq. lia.
Qed.

Lemma candidate_next baseName j :
  baseName +:+ "_" +:+ pretty (Z.of_nat j + 1) +:+ ".webp" = candidate baseName (S j).
Proof. unfold candidate. by replace (Z.of_nat (S j)) with (Z.of_nat j + 1) by lia. Qed.

Lemma whileUsed_finds usedNames baseName d :
  ∀ fuel j, (d < fuel)%nat → candidate baseName (j + d) ∉ usedNames →
  ∃ j', (j ≤ j' ≤ j + d)%nat
    ∧ whileUsed fuel usedNames baseName (candidate baseName j) (Z.of_nat j + 1)
      = Some (candidate baseName j')
    ∧ (candidate baseName j' ∉ usedNames)
    ∧ ∀ k, (j ≤ k < j')%nat → candidate baseName k ∈ usedNames.
Proof.
  induction d as [|d IH]; intros [|fuel] j Hfuel Hfree; try lia; cbn [whileUsed].
  - rewrite Nat.add_0_r in Hfree. rewrite decide_False by done.
    exists j. split_and!; [lia..|done|done|lia].
  - destruct (decide (candidate baseName j ∈ usedNames)) as [Hin|Hout].
    + rewrite candidate_next.
      destruct (IH fuel (S j)) as (j' & Hj' & Hrun & Hnew & Hold); [lia|..].
      { by replace (S j + d)%nat with (j + S d)%nat by lia. }
      exists j'. split_and!; [lia..| |done|].
      * rewrite <- Hrun. do 2 f_equal. lia.
      * intros k Hk. destruct (decide (k = j)) as [->|]; [done|].
        apply Hold. lia.
    + exists j. split_and!; [lia..|done|done|lia].
Qed.

Lemma candidate_free (usedNames : gset string) baseName :
  ∃ d, (d ≤ size usedNames)%nat ∧ candidate baseName d ∉ usedNames.
Proof.
  destruct (Forall_Exists_dec (λ d, candidate baseName d ∈ usedNames)
              (λ d, candidate baseName d ∉ usedNames) (λ d, decide _)
              (seq 0 (S (size usedNames)))) as [Hall|Hex].
  - assert (list_to_set (candidate baseName <$> seq 0 (S (size usedNames)))
            ⊆ usedNames) as Hsub.
    { intros x [y [-> Hy]]%elem_of_list_to_set%list_elem_of_fmap.
      rewrite Forall_forall in Hall. by apply Hall. }
    apply subseteq_size in Hsub.
    rewrite size_list_to_set in Hsub by apply (NoDup_fmap_2 _), NoDup_seq.
    rewrite length_fmap, length_seq in Hsub. lia.
  - apply Exists_exists in Hex as (d & Hd & Hfree).
    apply elem_of_seq in Hd. exists d. split; [lia|done].
Qed.

(** The loop ends, with the first candidate that is not in use. *)
Lemma entryName_total usedNames img :
  ∃ j, entryName usedNames img
       = Some (candidate (stripExtension (file_name (originalFile img))) j)
    ∧ (candidate (stripExtension (file_name (originalFile img))) j ∉ usedNames)
    ∧ ∀ k, (k < j)%nat →
        candidate (stripExtension (file_name (originalFile img))) k ∈ usedNames.
Proof.
  unfold entryName.
  destruct (candidate_free usedNames (stripExtension (file_name (originalFile img))))
    as (d & Hd & Hfree).
  destruct (whileUsed_finds usedNames (stripExtension (file_name (originalFile img)))
              d (S (size usedNames)) 0) as (j & _ & Hrun & Hnew & Hold);
    [lia|done|].
  exists j. split_and!; [exact Hrun|done|]. intros k Hk. apply Hold. lia.
Qed.

Lemma forEachCompleted_entries completedImages :
  ∀ (usedNames : gset string) (zip : list (string * Blob)),
  Forall exportable completedImages →
  usedNames = list_to_set zip.*1 → NoDup zip.*1 →
  ∃ added, forEachCompleted completedImages usedNames zip = Some (zip ++ added)
    ∧ length added = length completedImages
    ∧ NoDup (zip ++ added).*1
    ∧ ∀ k img, completedImages !! k = Some img →
        ∃ j blob,
          added !! k
          = Some (candidate (stripExtension (file_name (originalFile img))) j, blob)
          ∧ webpBlob img = Some blob
          ∧ (candidate (stripExtension (file_name (originalFile img))) j
             ∉ (zip ++ take k added).*1)
          ∧ ∀ j', (j' < j)%nat →
              candidate (stripExtension (file_name (originalFile img))) j'
              ∈ (zip ++ take k added).*1.
Proof.
  induction completedImages as [|img rest IH]; intros usedNames zip Hall Hused Hnd.
  { exists []. rewrite app_nil_r. split_and!; [done..|]. intros k img. by rewrite lookup_nil. }
  apply Forall_cons in Hall as [[_ [blob Hblob]] Hall]. cbn [forEachCompleted].
  destruct (entryName_total usedNames img) as (j & -> & Hnew & Hold).
  rewrite Hblob.
  destruct (IH ({[candidate (stripExtension (file_name (originalFile img))) j]} ∪ usedNames)
              (zip ++ [(candidate (stripExtension (file_name (originalFile img))) j, blob)]))
    as (added & Hrun & Hlen & Hnd' & Hent); [done|..].
  { rewrite fmap_app, list_to_set_app_L, Hused. cbn.
    rewrite (right_id_L ∅ (∪)). apply (comm_L (∪)). }
  { rewrite fmap_app. cbn. apply NoDup_app. split_and!; [done| |apply NoDup_singleton].
    intros x Hx ->%list_elem_of_singleton. apply Hnew. rewrite Hused. set_solver. }
  exists ((candidate (stripExtension (file_name (originalFile img))) j, blob) :: added).
  rewrite <- app_assoc in Hrun, Hnd'. cbn in Hrun, Hnd'.
  split_and!; [done|cbn; lia|done|].
  intros [|k] img' Hk; cbn in Hk.
  - injection Hk as <-. exists j, blob. cbn. rewrite app_nil_r.
    split_and!; [done..| |].
    + rewrite Hused in Hnew. set_solver.
    + intros j' Hj'. apply Hold in Hj'. rewrite Hused in Hj'. set_solver.
  - destruct (Hent k img' Hk) as (j' & blob' & ? & ? & ? & ?).
    exists j', blob'. cbn. rewrite <- app_assoc in *. by cbn in *.
Qed.

Lemma filter_exportable imgs : Forall exportable (filter exportable imgs).
Proof. apply Forall_forall. by intros img [? _]%list_elem_of_filter. Qed.

Lemma allNotSlashDot_dot x y : allNotSlashDot (x +:+ String "." y) = false.
Proof.
  induction x as [|c x IH]; [done|].
  simpl. rewrite IH. apply andb_false_r.
Qed.

Lemma allNotSlashDot_plain s : allNotSlashDot s = true ↔ plain s.
Proof.
  unfold plain. induction s as [|c s IH]; cbn.
  - split; [|done]. intros _ c Hc. by apply elem_of_nil in Hc.
  - rewrite andb_true_iff, IH. unfold notSlashDot.
    rewrite negb_true_iff, orb_false_iff, !Ascii.eqb_neq. split.
    + intros [[? ?] Hrest] c' [->|Hc']%elem_of_cons; [done|by apply Hrest].
    + intros Hall. split.
      * destruct (Hall c) as [? ?]; [left|done].
      * intros c' Hc'. apply Hall. by right.
Qed.

Lemma stripExtension_strips stem ext :
  ext ≠ "" → allNotSlashDot ext = true →
  stripExtension (stem +:+ String "." ext) = stem.
Proof.
  intros Hne Hext. induction stem as [|c stem IH].
  - simpl. rewrite Hext. by destruct ext.
  - simpl. by rewrite allNotSlashDot_dot, andb_false_r, IH.
Qed.

Lemma stripExtension_kept name :
  allNotSlashDot name = true → stripExtension name = name.
Proof.
  induction name as [|c name IH]; [done|].
  cbn. intros [Hc Hrest]%andb_true_iff. rewrite (IH Hrest).
  unfold notSlashDot in Hc. apply negb_true_iff, orb_false_iff in Hc as [_ ->].
  done.
Qed.

Lemma export_entries currentImages :
  ∃ zip, forEachCompleted (filter exportable currentImages) ∅ [] = Some zip
    ∧ length zip = length (filter exportable currentImages)
    ∧ NoDup zip.*1
    ∧ ∀ k img, filter exportable currentImages !! k = Some img →
        ∃ j blob,
          zip !! k
          = Some (candidate (stripExtension (file_name (originalFile img))) j, blob)
          ∧ webpBlob img = Some blob
          ∧ (candidate (stripExtension (file_name (originalFile img))) j
             ∉ (take k zip).*1)
          ∧ ∀ j', (j' < j)%nat →
              candidate (stripExtension (file_name (originalFile img))) j'
              ∈ (take k zip).*1.
Proof.
  destruct (forEachCompleted_entries (filter exportable currentImages) ∅ [])
    as (zip & Hrun & Hlen & Hnd & Hent);
    [apply filter_exportable|done|constructor|].
  exists zip. done.
Qed.

Lemma photo_twice img1 img2 blob1 blob2 :
  file_name (originalFile img1) = "photo.jpg" →
  file_name (originalFile img2) = "photo.jpg" →
  webpBlob img1 = Some blob1 → webpBlob img2 = Some blob2 →
  forEachCompleted [img1; img2] ∅ []
  = Some [("photo.webp", blob1); ("photo_1.webp", blob2)].
Proof.
  intros Hn1 Hn2 Hb1 Hb2. cbn [forEachCompleted]. unfold entryName.
  rewrite Hn1, Hn2, Hb1, Hb2.
  change (stripExtension "photo.jpg") with "photo".
  rewrite size_empty. cbn [whileUsed].
  rewrite decide_False by apply not_elem_of_empty.
  rewrite (right_id_L ∅ (∪)), size_singleton. cbn [whileUsed].
  rewrite decide_True by by apply elem_of_singleton.
  change ("photo" +:+ "_" +:+ pretty 1 +:+ ".webp") with "photo_1.webp".
  rewrite decide_False; [done|]. by intros ?%elem_of_singleton.
Qed.

(** C6.  The archive has one entry per completed item, in the order of the
    batch; the name of an entry is the name of the source without its
    extension followed by [.webp], or by [_1.webp], [_2.webp], ... for the
    first number whose name no earlier entry has; no two entries have the
    same name; and two items named [photo.jpg] give [photo.webp] and
    [photo_1.webp].  Without its extension: a name [stem.ext], where [ext] is
    not empty and has no dot and no slash, is taken as [stem], whatever dots
    [stem] has; a name without dot and slash is taken whole. *)
Theorem export_names_unique (currentImages : list ProcessedImage) :
  ∃ zip, forEachCompleted (filter exportable currentImages) ∅ [] = Some zip
    ∧ length zip = length (filter exportable currentImages)
    ∧ NoDup zip.*1
    ∧ (∀ k img, filter exportable currentImages !! k = Some img →
        ∃ j blob,
          zip !! k
          = Some (candidate (stripExtension (file_name (originalFile img))) j, blob)
          ∧ webpBlob img = Some blob
          ∧ (candidate (stripExtension (file_name (originalFile img))) j
             ∉ (take k zip).*1)
          ∧ ∀ j', (j' < j)%nat →
              candidate (stripExtension (file_name (originalFile img))) j'
              ∈ (take k zip).*1)
    ∧ (filter exportable currentImages ≠ [] →
       ∀ now page, imagesRef page = currentImages →
         handleDownloadAll NoFault now page
         = Some {| imagesRef := imagesRef page;
                   downloads := downloads page
                     ++ [("LocalWebP_converted_" +:+ pretty now +:+ ".zip", zip)];
                   alerts := alerts page;
                   consoleErrors := consoleErrors page |})
    ∧ (∀ img1 img2 blob1 blob2,
         file_name (originalFile img1) = "photo.jpg" →
         file_name (originalFile img2) = "photo.jpg" →
         webpBlob img1 = Some blob1 → webpBlob img2 = Some blob2 →
         forEachCompleted [img1; img2] ∅ []
         = Some [("photo.webp", blob1); ("photo_1.webp", blob2)])
    ∧ (∀ stem ext, ext ≠ "" → plain ext →
         stripExtension (stem +:+ String "." ext) = stem)
    ∧ (∀ name, plain name → stripExtension name = name).
Proof.
  destruct (export_entries currentImages) as (zip & Hrun & Hlen & Hnd & Hent).
  exists zip. split_and!; [done..| |apply photo_twice| |].
  - intros Hne now page <-. unfold handleDownloadAll.
    rewrite decide_False by by destruct (filter _ (imagesRef page)).
    by rewrite Hrun.
  - intros stem ext Hne Hplain%allNotSlashDot_plain. by apply stripExtension_strips.
  - intros name Hplain%allNotSlashDot_plain. by apply stripExtension_kept.
Qed.

(** C7.  The export returns, and whatever happens the store it read is the
    store it leaves: with nothing to export it does nothing at all, and when
    generating or handing over the archive throws it shows one alert and
    starts no download. *)
Theorem handleDownloadAll_frame (fault : Fault) (now : Z) (page : Page) :
  ∃ page', handleDownloadAll fault now page = Some page'
    ∧ imagesRef page' = imagesRef page
    ∧ (filter exportable (imagesRef page) = [] → page' = page)
    ∧ (filter exportable (imagesRef page) ≠ [] → fault ≠ NoFault →
         alerts page'
         = alerts page
           ++ ["Failed to create zip file. Please try downloading images individually."]
         ∧ downloads page' = downloads page
         ∧ consoleErrors page' = S (consoleErrors page))
    ∧ (filter exportable (imagesRef page) ≠ [] → fault = NoFault →
         alerts page' = alerts page
         ∧ consoleErrors page' = consoleErrors page
         ∧ ∃ zip, downloads page'
                  = downloads page
                    ++ [("LocalWebP_converted_" +:+ pretty now +:+ ".zip", zip)]).
Proof.
  unfold handleDownloadAll.
  destruct (export_entries (imagesRef page)) as (zip & -> & _).
  destruct (decide (length (filter exportable (imagesRef page)) = 0%nat)) as [Hz|Hnz].
  - exists page. split_and!; [done..| |]; intros Hne; by destruct (filter _ _).
  - assert (filter exportable (imagesRef page) ≠ []) as Hne.
    { intros Heq. by rewrite Heq in Hnz. }
    destruct fault; eexists; (split; [reflexivity|]); cbn;
      split_and!; try done; eauto.
Qed.

(** ** Sessions *)

Lemma same_id (imgs : list ProcessedImage) a b :
  NoDup (id <$> imgs) → a ∈ imgs → b ∈ imgs → id a = id b → a = b.
Proof.
  intros Hnd [k1 H1]%list_elem_of_lookup [k2 H2]%list_elem_of_lookup Heq.
  assert (k1 = k2) as ->; [|congruence].
  apply (NoDup_lookup (id <$> imgs) k1 k2 (id a)); [done|..];
    rewrite list_lookup_fmap; [by rewrite H1|by rewrite H2, Heq].
Qed.

Lemma row_elem i imgs item : row i imgs = Some item → item ∈ imgs ∧ id item = i.
Proof.
  unfold row. intros Hin%head_Some_elem_of.
  apply list_elem_of_filter in Hin. tauto.
Qed.

Lemma elem_id (imgs : list ProcessedImage) img : img ∈ imgs → id img ∈ id <$> imgs.
Proof. intros. apply list_elem_of_fmap. eauto. Qed.

Lemma fmap_keeps_ids (f : ProcessedImage → ProcessedImage) (imgs : list ProcessedImage) :
  (∀ img, img ∈ imgs → id (f img) = id img) → id <$> (f <$> imgs) = id <$> imgs.
Proof.
  intros Hf. rewrite <- list_fmap_compose. apply list_fmap_ext.
  intros k img Hk. apply Hf. by eapply list_elem_of_lookup_2.
Qed.

Lemma ascending_next cur p reports succeeds :
  ascending cur (p :: reports) succeeds → cur ≤ p ∧ ascending p reports succeeds.
Proof.
  intros (Hcur & Hs & Hend).
  apply StronglySorted_cons in Hs as [Hle Hs]. apply Forall_cons in Hle as [Hp _].
  split; [done|]. split_and!; [lia|done|].
  destruct succeeds.
  - destruct Hend as [[? _]|(pre & Heq & Hlt)]; [done|].
    destruct pre as [|p' pre]; cbn in Heq; simplify_eq.
    + left. done.
    + right. exists pre. split; [done|]. by apply Forall_cons in Hlt as [_ ?].
  - by apply Forall_cons in Hend as [_ ?].
Qed.

Lemma ascending_settled cur succeeds :
  ascending cur [] succeeds → if succeeds then cur = 100 else cur < 100.
Proof.
  intros (_ & _ & Hend). destruct succeeds.
  - destruct Hend as [[_ ?]|(pre & Heq & _)]; [done|]. by destruct pre.
  - by apply Forall_cons in Hend as [? _].
Qed.

Lemma ascending_hundred reports succeeds :
  ascending 100 reports succeeds → reports = [] ∧ succeeds = true.
Proof.
  intros (_ & _ & Hend). destruct succeeds.
  - destruct Hend as [[? _]|(pre & _ & Hlt)]; [done|].
    apply Forall_cons in Hlt as [? _]. lia.
  - apply Forall_cons in Hend as [? _]. lia.
Qed.

Lemma convertUpdates_running env item :
  wellBehaved env (originalFile item) = true →
  ∃ reports outcome,
    convertUpdates env item = (updateProgress <$> reports) ++ [settle env outcome]
    ∧ ascending 0 reports (resolved outcome).
Proof.
  intros Hwf. unfold convertUpdates.
  pose proof (convertToWebP_ascending env (originalFile item) (qualityToUse item)
                (durationToUse item) Hwf) as Hasc.
  destruct (convertToWebP _ _ _ _) as [reports outcome]. by exists reports, outcome.
Qed.

Lemma filter_keeps_ids (P : ProcessedImage → Prop) `{!∀ img, Decision (P img)}
    (imgs : list ProcessedImage) :
  NoDup (id <$> imgs) → NoDup (id <$> filter P imgs).
Proof. intros. eapply sublist_NoDup; [done|]. apply fmap_sublist, sublist_filter. Qed.

Lemma handleUpdateImage_ids i updates imgs :
  Partial.id updates = None → id <$> handleUpdateImage i updates imgs = id <$> imgs.
Proof.
  intros Hid. apply fmap_keeps_ids. intros img _. case_decide; [|done].
  cbn. by rewrite Hid.
Qed.

Lemma handleStartConversion_ids imgs : id <$> handleStartConversion imgs = id <$> imgs.
Proof. apply fmap_keeps_ids. intros img _. by case_decide. Qed.

Lemma handleRetry_ids i imgs : id <$> handleRetry i imgs = id <$> imgs.
Proof. apply fmap_keeps_ids. intros img _. by case_decide. Qed.

Lemma consistent_other running_of running_of' img :
  running_of' !! id img = running_of !! id img →
  consistent running_of img → consistent running_of' img.
Proof. unfold consistent. by intros ->. Qed.

Lemma consistent_running running_of img updates :
  consistent running_of img → running_of !! id img = Some updates →
  status img = Converting ∧ running img updates.
Proof.
  unfold consistent. intros Hc Hrun.
  destruct (status img); try (destruct Hc as [_ Hc]; congruence).
  destruct Hc as (updates' & Hrun' & ?). split; [done|]. congruence.
Qed.

Section Sessions.
Variable generateId : nat → string.
Hypothesis generateId_inj : Inj (=) (=) generateId.

Lemma invariant_initial : invariant generateId initial.
Proof.
  constructor; cbn.
  - constructor.
  - intros img Hin. by apply elem_of_nil in Hin.
  - constructor.
  - intros i [? Hi]. by rewrite lookup_empty in Hi.
Qed.

Lemma invariant_same_store s s' :
  invariant generateId s →
  images s' = images s → inflight s' = inflight s → generated s' = generated s →
  invariant generateId s'.
Proof. intros [] Himg Hfl Hgen. constructor; by rewrite ?Himg, ?Hfl, ?Hgen. Qed.

Lemma invariant_start s :
  invariant generateId s → invariant generateId (exec generateId StartConversion s).
Proof.
  intros [Hnd Hgen Hcons Hrows]. constructor; cbn.
  - by rewrite handleStartConversion_ids.
  - intros img' (img & -> & Hin)%list_elem_of_fmap.
    destruct (Hgen img Hin) as (k & ? & ?). exists k. by case_decide.
  - apply Forall_fmap. eapply Forall_impl; [exact Hcons|].
    intros img Hc. cbn. case_decide as Hst; [|done].
    unfold consistent in *. rewrite Hst in Hc. cbn. tauto.
  - intros i Hi. rewrite handleStartConversion_ids. by apply Hrows.
Qed.

Lemma invariant_retry s i :
  invariant generateId s → enabled (Retry i) s = true →
  invariant generateId (exec generateId (Retry i) s).
Proof.
  intros [Hnd Hgen Hcons Hrows] Hen. cbn in Hen.
  destruct (row i (images s)) as [item|] eqn:Hrow; [|done].
  apply bool_decide_eq_true in Hen. apply row_elem in Hrow as [Hitem <-].
  constructor; cbn.
  - by rewrite handleRetry_ids.
  - intros img' (img & -> & Hin)%list_elem_of_fmap.
    destruct (Hgen img Hin) as (k & ? & ?). exists k. by case_decide.
  - apply Forall_fmap, Forall_forall. intros img Hin. cbn.
    rewrite Forall_forall in Hcons. specialize (Hcons img Hin).
    case_decide as Hid; [|done].
    assert (img = item) as -> by by eapply same_id.
    unfold consistent in *. rewrite Hen in Hcons. cbn. split; [by right|tauto].
  - intros j Hj. rewrite handleRetry_ids. by apply Hrows.
Qed.

Lemma invariant_clear (P : ProcessedImage → Prop) `{!∀ img, Decision (P img)} s s' :
  invariant generateId s →
  (∀ img, status img = Converting → P img) →
  images s' = filter P (images s) →
  inflight s' = inflight s → generated s' = generated s →
  invariant generateId s'.
Proof.
  intros [Hnd Hgen Hcons Hrows] Hkeep Himg Hfl Hg.
  constructor; rewrite ?Himg, ?Hfl, ?Hg.
  - by apply filter_keeps_ids.
  - intros img [_ Hin]%list_elem_of_filter. by apply Hgen.
  - rewrite Forall_forall in Hcons. apply Forall_forall.
    intros img [_ Hin]%list_elem_of_filter. by apply Hcons.
  - intros i [updates Hi].
    assert (i ∈ id <$> images s) as (img & -> & Hin)%list_elem_of_fmap
      by by apply Hrows.
    rewrite Forall_forall in Hcons.
    destruct (consistent_running _ _ _ (Hcons img Hin) Hi) as [Hst _].
    apply elem_id, list_elem_of_filter. auto.
Qed.
Lemma invariant_spawn s i env :
  invariant generateId s → enabled (Spawn i env) s = true →
  invariant generateId (exec generateId (Spawn i env) s).
Proof.
  intros [Hnd Hgen Hcons Hrows] Hen. cbn in Hen |- *.
  destruct (row i (images s)) as [item|] eqn:Hrow; [|done].
  apply andb_true_iff in Hen as [[Hst Hfree]%andb_true_iff Hwf].
  apply bool_decide_eq_true in Hst, Hfree. apply row_elem in Hrow as [Hitem <-].
  constructor; cbn.
  - by rewrite handleUpdateImage_ids.
  - intros img' (img & -> & Hin)%list_elem_of_fmap.
    destruct (Hgen img Hin) as (k & ? & ?). exists k. by case_decide.
  - apply Forall_fmap, Forall_forall. intros img Hin. cbn.
    rewrite Forall_forall in Hcons. specialize (Hcons img Hin).
    case_decide as Hid.
    + assert (img = item) as -> by by eapply same_id.
      destruct (convertUpdates_running env item Hwf) as (reports & outcome & Heq & Hasc).
      unfold consistent. cbn. eexists. split; [apply lookup_insert_eq|].
      exists 0, reports, env, outcome. done.
    + eapply consistent_other; [|done]. by rewrite lookup_insert_ne.
  - intros j Hj. rewrite handleUpdateImage_ids by done.
    destruct (decide (id item = j)) as [<-|Hne]; [by apply elem_id|].
    rewrite lookup_insert_ne in Hj by done. by apply Hrows.
Qed.

Lemma ids_imap (f : nat → File → ProcessedImage) (h : ProcessedImage → ProcessedImage)
    (g : nat) (valid : list File) :
  (∀ k file, id (h (f k file)) = generateId (g + k)%nat) →
  id <$> (h <$> imap f valid) = (λ k, generateId (g + k)%nat) <$> seq 0 (length valid).
Proof.
  revert f g. induction valid as [|file valid IH]; intros f g Hf; [done|].
  cbn. rewrite Hf. f_equal.
  rewrite (IH _ (S g)).
  - rewrite <- fmap_S_seq, <- list_fmap_compose. apply list_fmap_ext.
    intros. cbn. f_equal. lia.
  - intros k file'. cbn. rewrite Hf. f_equal. lia.
Qed.

Lemma invariant_drop s fileList :
  invariant generateId s → invariant generateId (exec generateId (Drop fileList) s).
Proof.
  intros [Hnd Hgen Hcons Hrows]. cbn.
  set (valid := filter (λ file, isJpeg file || isPng file) fileList).
  set (fresh := imap (λ k file, {| id := generateId (generated s + k)%nat;
                originalFile := file; status := Idle; webpBlob := None;
                webpUrl := None; originalSize := file_size file; newSize := None;
                error := None; progress := None; delayDuration := None;
                targetQuality := None |}) valid).
  assert (∀ img, img ∈ handleFilesAdded (globalQuality s) fresh (images s) →
            img ∈ images s
            ∨ (status img = Idle ∧ progress img = None
               ∧ ∃ k, (generated s ≤ k < generated s + length valid)%nat
                      ∧ id img = generateId k)) as Hadded.
  { intros img [?|(f & Hf & Hst & Hid & Hp)]%handleFilesAdded_status; [by left|right].
    rewrite Hst, Hid, Hp. apply list_elem_of_lookup in Hf as [k Hk].
    unfold fresh in Hk. rewrite list_lookup_imap in Hk.
    destruct (valid !! k) as [file|] eqn:Hfile; [|done].
    apply lookup_lt_Some in Hfile. injection Hk as <-. cbn.
    split_and!; [done..|]. exists (generated s + k)%nat. split; [lia|done]. }
  assert (id <$> handleFilesAdded (globalQuality s) fresh (images s)
          = (id <$> images s) ++ ((λ k, generateId (generated s + k)%nat)
                                    <$> seq 0 (length valid))) as Hids.
  { unfold handleFilesAdded. rewrite fmap_app. f_equal. by apply ids_imap. }
  assert (invariant generateId
            {| images := handleFilesAdded (globalQuality s) fresh (images s);
               globalQuality := globalQuality s; inflight := inflight s;
               generated := (generated s + length valid)%nat;
               dropError := dropError s |}) as [Hnd' Hgen' Hcons' Hrows'].
  { constructor; cbn.
    - rewrite Hids. apply NoDup_app. split_and!; [done| |].
      + intros i (img & -> & Hin)%list_elem_of_fmap (k & Hk & _)%list_elem_of_fmap.
        destruct (Hgen img Hin) as (k' & Hlt & Hid'). rewrite Hid' in Hk.
        apply generateId_inj in Hk. lia.
      + apply NoDup_fmap_2, NoDup_seq. intros k k' Hk.
        apply generateId_inj in Hk. lia.
    - intros img [Hin|(_ & _ & k & Hk & Hid)]%Hadded.
      + destruct (Hgen img Hin) as (k & ? & ?). exists k. split; [lia|done].
      + exists k. split; [lia|done].
    - apply Forall_forall. intros img [Hin|(Hst & Hp & k & Hk & Hid)]%Hadded.
      + rewrite Forall_forall in Hcons. by apply Hcons.
      + unfold consistent. rewrite Hst. split; [done|].
        destruct (inflight s !! id img) eqn:Hrun; [|done].
        assert (id img ∈ id <$> images s) as (img0 & Hid0 & Hin0)%list_elem_of_fmap
          by by apply Hrows.
        destruct (Hgen img0 Hin0) as (k' & Hlt & Hid').
        rewrite Hid0, Hid' in Hid. apply generateId_inj in Hid. lia.
    - intros i Hi. rewrite Hids. apply elem_of_app. left. by apply Hrows. }
  destruct (0 <? Z.of_nat (length fresh)) eqn:Hlen; constructor; cbn; try done.
  - intros img Hin. destruct (Hgen img Hin) as (k & ? & ?). exists k. split; [lia|done].
Qed.
Lemma settle_no_id env outcome : Partial.id (settle env outcome) = None.
Proof. by destruct outcome. Qed.

Lemma invariant_deliver s i :
  invariant generateId s → enabled (Deliver i) s = true →
  invariant generateId (exec generateId (Deliver i) s).
Proof.
  intros [Hnd Hgen Hcons Hrows] Hen. cbn in Hen |- *.
  destruct (inflight s !! i) as [[|u rest]|] eqn:Hrun; try done.
  assert (i ∈ id <$> images s) as (item & -> & Hitem)%list_elem_of_fmap
    by by apply Hrows.
  rewrite Forall_forall in Hcons.
  destruct (consistent_running _ _ _ (Hcons item Hitem) Hrun)
    as [Hst (cur & reports & env & outcome & Hcur & Hupd & Hasc)].
  assert (Partial.id u = None) as Hnoid.
  { destruct reports; injection Hupd as -> _; [apply settle_no_id|done]. }
  assert (∀ img', img' ∈ handleUpdateImage (id item) u (images s) →
            ∃ img, img ∈ images s
              ∧ img' = if decide (id img = id item) then spread img u else img)
    as Hmapped.
  { intros img' (img & -> & Hin)%list_elem_of_fmap. by exists img. }
  constructor; cbn.
  - by rewrite handleUpdateImage_ids.
  - intros img' (img & Hin & ->)%Hmapped.
    destruct (Hgen img Hin) as (k & ? & ?). exists k. split; [done|].
    case_decide; [|done]. cbn. by rewrite Hnoid.
  - apply Forall_forall. intros img' (img & Hin & ->)%Hmapped.
    case_decide as Hid.
    + assert (img = item) as -> by by eapply same_id.
      destruct reports as [|p reports]; injection Hupd as -> Hrest.
      * subst rest. apply ascending_settled in Hasc. unfold consistent.
        destruct outcome; cbn in *; rewrite lookup_delete_eq.
        -- done.
        -- split; [|done]. exists cur. done.
      * apply ascending_next in Hasc as [_ Hasc].
        destruct rest as [|u' rest']; [by destruct reports|].
        unfold consistent. cbn. rewrite Hst.
        eexists. split; [apply lookup_insert_eq|].
        exists p, reports, env, outcome. done.
    + eapply consistent_other; [|by apply Hcons].
      destruct rest; [by rewrite lookup_delete_ne|by rewrite lookup_insert_ne].
  - intros j Hj. rewrite handleUpdateImage_ids by done.
    destruct (decide (id item = j)) as [<-|Hne]; [by apply elem_id|].
    apply Hrows.
    destruct rest; [by rewrite lookup_delete_ne in Hj|by rewrite lookup_insert_ne in Hj].
Qed.

Lemma invariant_exec s c :
  invariant generateId s → enabled c s = true →
  invariant generateId (exec generateId c s).
Proof.
  intros Hinv Hen. destruct c.
  - by apply invariant_drop.
  - by eapply invariant_same_store.
  - by apply invariant_start.
  - by apply invariant_spawn.
  - by apply invariant_deliver.
  - by apply invariant_retry.
  - eapply (invariant_clear (λ img, status img ≠ Completed)); [done| |done..].
    by intros img ->.
  - eapply (invariant_clear (λ img, status img ≠ Error)); [done| |done..].
    by intros img ->.
Qed.

Lemma reachable_invariant s : reachable generateId s → invariant generateId s.
Proof.
  induction 1 as [|s c _ IH Hen]; [apply invariant_initial|by apply invariant_exec].
Qed.

Lemma run_reachable cs s s' :
  reachable generateId s → run generateId cs s = Some s' → reachable generateId s'.
Proof.
  revert s. induction cs as [|c cs IH]; intros s Hs Hrun; cbn in Hrun.
  - by injection Hrun as <-.
  - destruct (enabled c s) eqn:Hen; [|done].
    eapply IH; [|done]. by constructor.
Qed.
Lemma drop_items s fileList img :
  img ∈ images (exec generateId (Drop fileList) s) →
  img ∈ images s
  ∨ (status img = Idle ∧ ∃ k, (generated s ≤ k)%nat ∧ id img = generateId k).
Proof.
  cbn. case_match; [|by left].
  intros [?|(f & Hf & Hst & Hid & _)]%handleFilesAdded_status; [by left|right].
  rewrite Hst, Hid.
  match goal with H : (if ?b then _ else _) = Some _ |- _ =>
    destruct b; [|done]; injection H as <- end.
  apply list_elem_of_lookup in Hf as [k Hk]. rewrite list_lookup_imap in Hk.
  destruct (filter _ fileList !! k) as [file|]; [|done]. injection Hk as <-. cbn.
  split; [done|]. exists (generated s + k)%nat. split; [lia|done].
Qed.

(** What one command does to the items of the store. *)
Lemma exec_item s c img' :
  invariant generateId s → enabled c s = true →
  img' ∈ images (exec generateId c s) →
  img' ∈ images s
  ∨ (status img' = Idle ∧ ∀ img, img ∈ images s → id img ≠ id img')
  ∨ ∃ img, img ∈ images s ∧ id img' = id img ∧ moved c img img'.
Proof.
  intros [Hnd Hgen Hcons Hrows] Hen Hin'. rewrite Forall_forall in Hcons.
  destruct c as [fileList|q| |i env|i|i| |].
  - apply drop_items in Hin' as [?|(Hst & k & Hk & Hid)]; [by left|right; left].
    split; [done|]. intros img Hin Heq. destruct (Hgen img Hin) as (k' & Hlt & Hid').
    rewrite Hid, Hid' in Heq. apply generateId_inj in Heq. lia.
  - by left.
  - cbn in Hin'. apply list_elem_of_fmap in Hin' as (img & -> & Hin).
    case_decide as Hst; [right; right|by left].
    exists img. split_and!; [done..|]. unfold moved. cbn. rewrite Hst.
    split; [left; constructor|by left].
  - cbn in Hen, Hin'. destruct (row i (images s)) as [item|] eqn:Hrow; [|done].
    apply andb_true_iff in Hen as [[Hst _]%andb_true_iff _].
    apply bool_decide_eq_true in Hst. apply row_elem in Hrow as [Hitem <-].
    cbn in Hin'. apply list_elem_of_fmap in Hin' as (img & -> & Hin).
    case_decide as Hid; [right; right|by left].
    assert (img = item) as -> by by eapply same_id.
    exists item. split_and!; [done..|]. unfold moved. cbn. rewrite Hst.
    split; [left; constructor|left].
    specialize (Hcons item Hitem). unfold consistent in Hcons. rewrite Hst in Hcons.
    unfold shown. cbn. by destruct Hcons as [[->| ->] _].
  - cbn in Hen, Hin'.
    destruct (inflight s !! i) as [[|u rest]|] eqn:Hrun; try done.
    assert (i ∈ id <$> images s) as (item & -> & Hitem)%list_elem_of_fmap
      by by apply Hrows.
    destruct (consistent_running _ _ _ (Hcons item Hitem) Hrun)
      as [Hst (cur & reports & env & outcome & Hcur & Hupd & Hasc)].
    cbn in Hin'. apply list_elem_of_fmap in Hin' as (img & -> & Hin).
    case_decide as Hid; [right; right|by left].
    assert (img = item) as -> by by eapply same_id.
    exists item. unfold moved, shown. rewrite Hst, Hcur.
    destruct reports as [|p reports]; injection Hupd as -> _.
    + apply ascending_settled in Hasc.
      destruct outcome; cbn in *; (split_and!; [done..| |]);
        [left; constructor|left; lia|left; constructor|left; by rewrite Hcur].
    + apply ascending_next in Hasc as [Hle _]. cbn.
      split_and!; [done..|right; by rewrite Hst|by left].
  - cbn in Hen, Hin'. destruct (row i (images s)) as [item|] eqn:Hrow; [|done].
    apply bool_decide_eq_true in Hen. apply row_elem in Hrow as [Hitem <-].
    apply list_elem_of_fmap in Hin' as (img & -> & Hin).
    case_decide as Hid; [right; right|by left].
    assert (img = item) as -> by by eapply same_id.
    exists item. split_and!; [done..|]. unfold moved. cbn. rewrite Hen.
    split; [left; constructor|by right].
  - left. cbn in Hin'. by apply list_elem_of_filter in Hin' as [_ ?].
  - left. cbn in Hin'. by apply list_elem_of_filter in Hin' as [_ ?].
Qed.
(** C2, as amended.  In every session that can be reached, an item whose
    progress is 100 is completed, or it is converting and all that its
    running [convert] has left to do is the update that completes it: the
    engine has reported 100 and the promise has not been handled yet.  An
    idle, pending or failed item never has progress 100. *)
Theorem hundred_only_at_the_end (s : Session) (img : ProcessedImage) :
  reachable generateId s → img ∈ images s → progress img = Some 100 →
  status img = Completed
  ∨ (status img = Converting
     ∧ ∃ blob url, inflight s !! id img = Some [updateCompleted blob url]).
Proof.
  intros [_ _ Hcons _]%reachable_invariant Hin Hp.
  rewrite Forall_forall in Hcons. specialize (Hcons img Hin).
  unfold consistent in Hcons. destruct (status img); [..|by left|].
  - destruct Hcons as [? _]. congruence.
  - destruct Hcons as [[?|?] _]; congruence.
  - right. split; [done|].
    destruct Hcons as (updates & Hrun & cur & reports & env & outcome & Hcur & -> & Hasc).
    assert (cur = 100) as -> by congruence.
    apply ascending_hundred in Hasc as [-> Hres].
    destruct outcome as [blob|]; [|done]. rewrite Hrun. by eexists _, _.
  - destruct Hcons as [(p & ? & ?) _]. assert (p = 100) by congruence. lia.
Qed.

(** C8, as amended.  Whatever command happens in a session that can be
    reached, as the components make it available ([enabled]: Retry only for
    an item in error, the one status for which the row renders the button),
    an item that is still in the store has kept its status or moved along one
    edge of idle → pending → converting → completed | error, error → pending;
    an item that was completed is left exactly as it was; and an item that
    was not in the store before is idle. *)
Theorem status_follows_graph (s : Session) (c : Command) :
  reachable generateId s → enabled c s = true →
  (∀ img img', img ∈ images s → img' ∈ images (exec generateId c s) →
     id img' = id img →
     (status img' = status img ∨ edge (status img) (status img'))
     ∧ (status img = Completed → img' = img))
  ∧ (∀ img', img' ∈ images (exec generateId c s) →
       (∀ img, img ∈ images s → id img ≠ id img') → status img' = Idle).
Proof.
  intros Hinv%reachable_invariant Hen. split.
  - intros img img' Hin Hin' Hid.
    destruct (exec_item s c img' Hinv Hen Hin')
      as [Hold|[[_ Hnew]|(img0 & Hin0 & Hid0 & [Hedge _])]].
    + assert (img' = img) as -> by (eapply same_id; [apply Hinv|done..]).
      split; [by left|done].
    + by destruct (Hnew img Hin).
    + assert (img0 = img) as -> by (eapply same_id; [apply Hinv|done|done|congruence]).
      split.
      * destruct Hedge as [?|[-> ->]]; [by right|by left].
      * intros Hst. rewrite Hst in Hedge. destruct Hedge as [Hedge|[? _]]; [|done].
        inversion Hedge.
  - intros img' Hin' Hnew.
    destruct (exec_item s c img' Hinv Hen Hin') as [Hold|[[? _]|(img0 & Hin0 & Hid0 & _)]].
    + by destruct (Hnew img' Hold).
    + done.
    + by destruct (Hnew img0 Hin0).
Qed.

(** C9.  The percents reported by one call of [convertToWebP] never
    decrease from the first to the last; and in a session that can be
    reached the percent of an item goes down only when Retry makes an item
    in error pending again, with progress 0. *)
Theorem progress_never_decreases (env : Platform) (file : File) (q : Q) (d : Z)
    (s : Session) (c : Command) :
  (wellBehaved env file = true → StronglySorted Z.le (convertToWebP env file q d).1)
  ∧ (reachable generateId s → enabled c s = true →
     ∀ img img', img ∈ images s → img' ∈ images (exec generateId c s) →
       id img' = id img → shown img' < shown img →
       c = Retry (id img) ∧ status img = Error ∧ status img' = Pending
       ∧ progress img' = Some 0).
Proof.
  split.
  - intros Hwf. destruct (convertToWebP_ascending env file q d Hwf) as (_ & Hs & _).
    by apply StronglySorted_cons in Hs as [_ ?].
  - intros Hinv%reachable_invariant Hen img img' Hin Hin' Hid Hlt.
    destruct (exec_item s c img' Hinv Hen Hin')
      as [Hold|[[_ Hnew]|(img0 & Hin0 & Hid0 & [_ Hshown])]].
    + assert (img' = img) as -> by (eapply same_id; [apply Hinv|done..]). lia.
    + by destruct (Hnew img Hin).
    + assert (img0 = img) as -> by (eapply same_id; [apply Hinv|done|done|congruence]).
      destruct Hshown; [lia|done].
Qed.
End Sessions.

(** ** The examples *)

Global Instance exampleId_inj : Inj (=) (=) exampleId.
Proof. unfold exampleId. apply _. Qed.

(** C1, as stated, fails: the source is read and decoded, the canvas gives no
    2D context, and the reports stop at 15: no climb, no 99. *)
Lemma convertToWebP_without_context :
  readOutcome noContext = ReadLoad (Some "data:image/jpeg;base64,AAAA")
  ∧ imageLoads noContext = true
  ∧ convertToWebP noContext photo (8 # 10)%Q 3000
    = ([0; 5; 10; 12; 15], Rejected "Could not get canvas context")
  ∧ 99 ∉ (convertToWebP noContext photo (8 # 10)%Q 3000).1.
Proof.
  split_and!; [reflexivity..|].
  vm_compute. intros Hin. repeat (apply elem_of_cons in Hin as [?|Hin]; [done|]).
  by apply elem_of_nil in Hin.
Qed.

Lemma converted_46 :
  ∃ s, run exampleId (converted 46) initial = Some s
    ∧ (λ img, (id img, status img, progress img)) <$> images s
      = [("0", Converting, Some 100)]
    ∧ inflight s !! "0" = Some [updateCompleted webp "blob:1"]
    ∧ enabled (Deliver "0") s = true.
Proof.
  eexists. split; [vm_compute; reflexivity|].
  split_and?; vm_compute; reflexivity.
Qed.

Lemma converted_47 :
  ∃ s, run exampleId (converted 47) initial = Some s ∧ images s = [done "0"].
Proof.
  eexists. split; [vm_compute; reflexivity|].
  split_and?; vm_compute; reflexivity.
Qed.

Lemma failed_6 :
  ∃ s, run exampleId failed initial = Some s
    ∧ (λ img, (id img, status img, progress img)) <$> images s
      = [("0", Error, Some 15)]
    ∧ (λ img, (id img, status img, progress img))
        <$> images (exec exampleId (Retry "0") s)
      = [("0", Pending, Some 0)]
    ∧ enabled (Retry "0") s = true.
Proof.
  eexists. split; [vm_compute; reflexivity|].
  split_and?; vm_compute; reflexivity.
Qed.

(** C8, as stated, fails: [handleRetry] tests no status, and with the id of
    a completed item, for which no Retry button is rendered, it makes the
    item pending, its blob still there. *)
Lemma handleRetry_moves_completed :
  ∃ s, reachable exampleId s ∧ images s = [done "0"]
    ∧ status (done "0") = Completed
    ∧ enabled (Retry "0") s = false
    ∧ images (exec exampleId (Retry "0") s) = handleRetry "0" (images s)
    ∧ status <$> handleRetry "0" (images s) = [Pending]
    ∧ webpBlob <$> handleRetry "0" (images s) = [Some webp]
    ∧ ¬ edge Completed Pending.
Proof.
  destruct converted_47 as (s & Hrun & Himg).
  assert (reachable exampleId s) as Hs
    by (eapply run_reachable; [constructor|exact Hrun]).
  clear Hrun. exists s.
  split_and!; [exact Hs|exact Himg|reflexivity| |reflexivity|..].
  - cbn. rewrite Himg. reflexivity.
  - rewrite Himg. reflexivity.
  - rewrite Himg. reflexivity.
  - intros Hedge. inversion Hedge.
Qed.

(** C2, as stated, fails: once the engine has reported 100 the item has
    progress 100 and is still converting. *)
Lemma hundred_while_converting :
  ∃ s img, reachable exampleId s ∧ img ∈ images s
    ∧ status img = Converting ∧ progress img = Some 100.
Proof.
  destruct converted_46 as (s & Hrun & Himg & _).
  assert (reachable exampleId s) as Hs
    by (eapply run_reachable; [constructor|exact Hrun]).
  clear Hrun. exists s.
  destruct (images s) as [|img [|? ?]]; [discriminate Himg| |discriminate Himg].
  injection Himg as _ Hst Hp.
  exists img. split_and!; [exact Hs|left|exact Hst|exact Hp].
Qed.

(** ** The theorems at work on the examples *)

Lemma convertToWebP_checkpoints_witness :
  readOutcome browser = ReadLoad (Some "data:image/jpeg;base64,AAAA")
  ∧ truthy (Some "data:image/jpeg;base64,AAAA") = true
  ∧ imageLoads browser = true
  ∧ getContext browser = true
  ∧ (convertToWebP browser photo (8 # 10)%Q 300).1
    = 0 :: readPercents browser ++ [12; 15] ++ climb (ceilDiv 300 100) ++ [99]
        ++ match toBlob browser (8 # 10)%Q with Some _ => [100] | None => [] end.
Proof.
  split_and!; [reflexivity..|].
  exact (proj1 (convertToWebP_checkpoints browser photo (8 # 10)%Q 300
                  (Some "data:image/jpeg;base64,AAAA")
                  eq_refl eq_refl eq_refl eq_refl)).
Defined.

Lemma hundred_only_at_the_end_witness :
  ∃ s img, reachable exampleId s ∧ img ∈ images s ∧ progress img = Some 100
    ∧ (status img = Completed
       ∨ (status img = Converting
          ∧ ∃ blob url, inflight s !! id img = Some [updateCompleted blob url])).
Proof.
  destruct converted_47 as (s & Hrun & Himg).
  assert (reachable exampleId s) as Hs
    by (eapply run_reachable; [constructor|exact Hrun]).
  clear Hrun. exists s, (done "0").
  assert (done "0" ∈ images s) as Hin by (rewrite Himg; left).
  split_and!; [exact Hs|exact Hin|reflexivity|].
  exact (hundred_only_at_the_end exampleId exampleId_inj s (done "0") Hs Hin eq_refl).
Defined.

Lemma handleFilesAdded_delay_witness :
  ∃ added,
    handleFilesAdded (8 # 10)%Q [done "0"; done "1"; done "2"] [] = added
    ∧ Forall (λ img, delayDuration img = Some 6000) added.
Proof.
  destruct (handleFilesAdded_delay (8 # 10)%Q [done "0"; done "1"; done "2"] [])
    as (added & Heq & _ & _ & Hthree & _).
  exists added. split; [exact Heq|exact (Hthree eq_refl)].
Defined.

Lemma handleRetry_resets_witness :
  ∃ img', handleRetry "0" [done "0"; done "1"] !! 0%nat = Some img'
    ∧ status img' = Pending ∧ progress img' = Some 0
    ∧ delayDuration img' = Some 3000
    ∧ handleRetry "0" [done "0"; done "1"] !! 1%nat = Some (done "1").
Proof.
  destruct (handleRetry_resets "0" [done "0"; done "1"]) as (_ & Hhit & Hmiss).
  destruct (Hhit 0%nat (done "0") eq_refl eq_refl)
    as (img' & Hk & Hst & _ & Hp & Hd & _).
  exists img'. split_and!; [exact Hk|exact Hst|exact Hp|exact Hd|].
  apply (Hmiss 1%nat (done "1") eq_refl). discriminate.
Defined.


Lemma export_names_unique_witness :
  ∃ zip, forEachCompleted (filter exportable [done "0"; done "1"]) ∅ [] = Some zip
    ∧ length zip = 2%nat
    ∧ NoDup zip.*1
    ∧ zip = [("photo.webp", webp); ("photo_1.webp", webp)]
    ∧ stripExtension ("my.holiday.photo" +:+ String "." "jpg") = "my.holiday.photo".
Proof.
  destruct (export_names_unique [done "0"; done "1"])
    as (zip & Hrun & Hlen & Hnd & _ & _ & Hphoto & Hstrip & _).
  exists zip. split_and!; [exact Hrun|exact Hlen|exact Hnd| |].
  - specialize (Hphoto (done "0") (done "1") webp webp eq_refl eq_refl eq_refl eq_refl).
    change (filter exportable [done "0"; done "1"]) with [done "0"; done "1"] in Hrun.
    rewrite Hphoto in Hrun. injection Hrun as <-. reflexivity.
  - clear Hrun Hlen Hnd Hphoto.
    apply Hstrip; [discriminate|].
    apply allNotSlashDot_plain. reflexivity.
Defined.

Lemma handleDownloadAll_frame_witness :
  ∃ page', handleDownloadAll GenerateThrows 0
             {| imagesRef := [done "0"]; downloads := []; alerts := [];
                consoleErrors := 0 |} = Some page'
    ∧ imagesRef page' = [done "0"]
    ∧ alerts page'
      = ["Failed to create zip file. Please try downloading images individually."]
    ∧ downloads page' = [].
Proof.
  destruct (handleDownloadAll_frame GenerateThrows 0
              {| imagesRef := [done "0"]; downloads := []; alerts := [];
                 consoleErrors := 0 |})
    as (page' & Hrun & Himg & _ & Hfault & _).
  exists page'. split_and!; [exact Hrun|exact Himg|..];
    destruct Hfault as (Ha & Hd & _); try discriminate; assumption.
Defined.

Lemma handleUpdateImage_frame_witness :
  handleUpdateImage "1" (updateProgress 50) [done "0"] = [done "0"]
  ∧ handleUpdateImage "0" (updateProgress 50) [done "0"; done "1"] !! 1%nat
    = Some (done "1").
Proof.
  destruct (handleUpdateImage_frame "1" (updateProgress 50) [done "0"])
    as (_ & _ & _ & _ & Habsent).
  destruct (handleUpdateImage_frame "0" (updateProgress 50) [done "0"; done "1"])
    as (_ & _ & Hother & _).
  split.
  - apply Habsent. intros img Hin.
    apply list_elem_of_singleton in Hin as ->. discriminate.
  - apply (Hother 1%nat (done "1") eq_refl). discriminate.
Defined.

Lemma status_follows_graph_witness :
  ∃ s, reachable exampleId s ∧ enabled (Deliver "0") s = true
    ∧ ∀ img img', img ∈ images s →
        img' ∈ images (exec exampleId (Deliver "0") s) → id img' = id img →
        (status img' = status img ∨ edge (status img) (status img'))
        ∧ (status img = Completed → img' = img).
Proof.
  destruct converted_46 as (s & Hrun & _ & _ & Hen).
  assert (reachable exampleId s) as Hs
    by (eapply run_reachable; [constructor|exact Hrun]).
  clear Hrun. exists s. split_and!; [exact Hs|exact Hen|].
  exact (proj1 (status_follows_graph exampleId exampleId_inj s (Deliver "0") Hs Hen)).
Defined.

Lemma progress_never_decreases_witness :
  wellBehaved browser photo = true
  ∧ StronglySorted Z.le (convertToWebP browser photo (8 # 10)%Q 300).1
  ∧ ∃ s img img', reachable exampleId s ∧ enabled (Retry "0") s = true
      ∧ img ∈ images s ∧ img' ∈ images (exec exampleId (Retry "0") s)
      ∧ id img' = id img ∧ shown img' < shown img
      ∧ Retry "0" = Retry (id img) ∧ status img = Error ∧ status img' = Pending
      ∧ progress img' = Some 0.
Proof.
  destruct failed_6 as (s & Hrun & Hbefore & Hafter & Hen).
  assert (reachable exampleId s) as Hs
    by (eapply run_reachable; [constructor|exact Hrun]).
  clear Hrun.
  destruct (progress_never_decreases exampleId exampleId_inj browser photo
              (8 # 10)%Q 300 s (Retry "0")) as [Hsorted Hstore].
  split_and!; [reflexivity|exact (Hsorted eq_refl)|].
  specialize (Hstore Hs Hen).
  destruct (images s) as [|img [|? ?]] eqn:Himgs;
    [discriminate Hbefore| |discriminate Hbefore].
  destruct (images (exec exampleId (Retry "0") s)) as [|img' [|? ?]] eqn:Himgs';
    [discriminate Hafter| |discriminate Hafter].
  injection Hbefore as Hid _ Hp. injection Hafter as Hid' _ Hp'.
  assert (id img' = id img) as Hsame by congruence.
  assert (shown img' < shown img) as Hlt by (unfold shown; rewrite Hp, Hp'; cbn; lia).
  assert (img ∈ [img]) as Hin by left.
  assert (img' ∈ [img']) as Hin' by left.
  exists s, img, img'. rewrite Himgs, Himgs'.
  repeat (split; [first [exact Hs|exact Hen|exact Hin|exact Hin'|exact Hsame|exact Hlt]|]).
  exact (Hstore img img' Hin Hin' Hsame Hlt).
Defined.

(** * Further properties of the code *)

(** ** Start and clear *)











(** ** The badge and the messages of a row *)

(** X3.  The badge of a row agrees with the ingestion: [getFileType] answers
    [OTHER] exactly for the files [processFiles] rejects, [JPG] only for
    files the JPEG test accepts and [PNG] only for files the PNG test
    accepts. *)
Theorem getFileType_accepts (file : File) :
  (getFileType file = OTHER ↔ isJpeg file || isPng file = false)
  ∧ (getFileType file = JPG → isJpeg file = true)
  ∧ (getFileType file = PNG → isPng file = true)
  ∧ (getFileType file = OTHER ↔ ¬ supported file).
Proof.
  assert (getFileType file = OTHER ↔ isJpeg file || isPng file = false) as Hother.
  { unfold getFileType, isJpeg, isPng.
    destruct (String.eqb (file_type file) "image/jpeg"); [done|].
    destruct (String.eqb (file_type file) "image/png");
      [cbn; by rewrite orb_true_r|].
    destruct (endsWith (toLowerCase (file_name file)) ".jpg"); [done|].
    destruct (endsWith (toLowerCase (file_name file)) ".jpeg"); [done|].
    by destruct (endsWith (toLowerCase (file_name file)) ".png"). }
  split_and!; [done|..].
  - unfold getFileType, isJpeg.
    destruct (String.eqb (file_type file) "image/jpeg"); [done|].
    destruct (String.eqb (file_type file) "image/png"); [done|]. cbn.
    destruct (endsWith (toLowerCase (file_name file)) ".jpg"); [done|].
    destruct (endsWith (toLowerCase (file_name file)) ".jpeg"); [done|].
    by destruct (endsWith (toLowerCase (file_name file)) ".png").
  - unfold getFileType, isPng.
    destruct (String.eqb (file_type file) "image/jpeg"); [done|].
    destruct (String.eqb (file_type file) "image/png"); [done|]. cbn.
    destruct (endsWith (toLowerCase (file_name file)) ".jpg"); [done|].
    destruct (endsWith (toLowerCase (file_name file)) ".jpeg"); [done|].
    by destruct (endsWith (toLowerCase (file_name file)) ".png").
  - rewrite Hother, <- accepted_supported.
    by destruct (isJpeg file || isPng file).
Qed.

Lemma getFileType_accepts_witness :
  getFileType photo = JPG ∧ isJpeg photo = true ∧ getFileType notes = OTHER.
Proof.
  destruct (getFileType_accepts photo) as (_ & Hjpg & _).
  destruct (getFileType_accepts notes) as (Hother & _).
  split_and!; [reflexivity|exact (Hjpg eq_refl)|exact (proj2 Hother eq_refl)].
Defined.

(** X4.  When [convertToWebP] rejects, its message is one of five, and the
    row shows it as follows: a source that does not decode as "Corrupt/
    Unsupported File", a missing canvas context as "Browser Memory Full", and
    the three others (read failure, empty result, encoder failure) as they
    are; "Processing Timed Out" is never shown for a message of the engine. *)
Theorem getFriendlyErrorMessage_rejections (env : Platform) (file : File) (q : Q)
    (d : Z) (message : string) :
  (convertToWebP env file q d).2 = Rejected message →
  message ∈ rejections
  ∧ getFriendlyErrorMessage message
    = (if String.eqb message "Failed to load image" then "Corrupt/Unsupported File"
       else if String.eqb message "Could not get canvas context"
            then "Browser Memory Full"
            else message)
  ∧ getFriendlyErrorMessage message ≠ "Processing Timed Out".
Proof.
  unfold convertToWebP, rejections.
  destruct (readOutcome env) as [|result]; cbn [snd].
  { intros [= <-]. split_and!; [|reflexivity|discriminate]. set_solver. }
  destruct (truthy result); cbn [negb snd];
    [|intros [= <-]; split_and!; [set_solver|reflexivity|discriminate]].
  destruct (imageLoads env); cbn [negb snd];
    [|intros [= <-]; split_and!; [set_solver|reflexivity|discriminate]].
  destruct (getContext env); cbn [negb snd];
    [|intros [= <-]; split_and!; [set_solver|reflexivity|discriminate]].
  destruct (toBlob env q); cbn [snd]; [discriminate|].
  intros [= <-]. split_and!; [set_solver|reflexivity|discriminate].
Qed.

Lemma getFriendlyErrorMessage_rejections_witness :
  (convertToWebP noContext photo (8 # 10)%Q 3000).2
  = Rejected "Could not get canvas context"
  ∧ getFriendlyErrorMessage "Could not get canvas context" = "Browser Memory Full".
Proof.
  split; [reflexivity|].
  exact (proj1 (proj2 (getFriendlyErrorMessage_rejections noContext photo (8 # 10)%Q
                         3000 "Could not get canvas context" eq_refl))).
Defined.

(** X5.  [convertToWebP] resolves exactly when the reader loads a non-empty
    result, the image loads, the canvas gives a 2D context and the encoder
    gives a blob at the requested quality; it then resolves with that blob,
    whatever the duration. *)
Theorem convertToWebP_resolves (env : Platform) (file : File) (q : Q) (d : Z)
    (blob : Blob) :
  (convertToWebP env file q d).2 = Resolved blob
  ↔ (∃ result, readOutcome env = ReadLoad result ∧ truthy result = true)
    ∧ imageLoads env = true ∧ getContext env = true ∧ toBlob env q = Some blob.
Proof.
  unfold convertToWebP. split.
  - destruct (readOutcome env) as [|result]; cbn [snd]; [done|].
    destruct (truthy result) eqn:Hres; cbn [negb snd]; [|done].
    destruct (imageLoads env); cbn [negb snd]; [|done].
    destruct (getContext env); cbn [negb snd]; [|done].
    destruct (toBlob env q); cbn [snd]; [|done].
    intros [= ->]. split_and!; [|done..]. by exists result.
  - intros ((result & -> & ->) & -> & -> & ->). done.
Qed.

Lemma convertToWebP_resolves_witness :
  (convertToWebP browser photo (8 # 10)%Q 300).2 = Resolved webp.
Proof.
  apply (convertToWebP_resolves browser photo (8 # 10)%Q 300 webp).
  split_and!; [|reflexivity..]. exists (Some "data:image/jpeg;base64,AAAA").
  split; reflexivity.
Defined.

(** X6.  A duration of at most 100 ms (zero and negative ones included) makes
    the timer run once: the simulated phase reports 99 and nothing else, and
    a duration in (100, 200] adds the single value 57 before it. *)
Theorem timer_short (d : Z) :
  (d ≤ 100 → timer (ceilDiv d updateInterval) 0 = [99])
  ∧ (100 < d ≤ 200 → timer (ceilDiv d updateInterval) 0 = [57; 99]).
Proof.
  unfold updateInterval, ceilDiv. split.
  - intros Hd. apply timer_last.
    assert (-1 ≤ - d / 100); [|lia]. apply Z.div_le_lower_bound; lia.
  - intros Hd. assert (- d / 100 = -2) as ->.
    { symmetry. apply (Z.div_unique _ _ _ (200 - d)); lia. }
    reflexivity.
Qed.

Lemma timer_short_witness :
  timer (ceilDiv 0 updateInterval) 0 = [99]
  ∧ timer (ceilDiv 150 updateInterval) 0 = [57; 99].
Proof.
  destruct (timer_short 0) as [Hzero _]. destruct (timer_short 150) as [_ Htwo].
  split; [apply Hzero|apply Htwo]; lia.
Defined.

(** ** Names *)

(** X7.  Stripping the extension removes a last part [.ext] whose [ext] is
    not empty and has no dot or slash, whatever comes before it (dots
    included, and nothing at all for a name like [.gitignore]); a name
    without dot or slash is left as it is; and in every case the result is
    the beginning of the name. *)
Theorem stripExtension_stem (name : string) :
  (∀ stem ext, name = stem +:+ String "." ext → ext ≠ "" →
     allNotSlashDot ext = true → stripExtension name = stem)
  ∧ (allNotSlashDot name = true → stripExtension name = name)
  ∧ (∃ suffix, name = stripExtension name +:+ suffix).
Proof.
  split_and!.
  - intros stem ext -> Hne Hext. by apply stripExtension_strips.
  - apply stripExtension_kept.
  - induction name as [|c name [suffix IH]]; [by exists ""|].
    cbn [stripExtension].
    destruct (Ascii.eqb c "." && negb (String.eqb name "") && allNotSlashDot name).
    + by exists (String c name).
    + exists suffix.
      change (String c (stripExtension name) +:+ suffix)
        with (String c (stripExtension name +:+ suffix)).
      by f_equal.
Qed.

Lemma stripExtension_stem_witness :
  stripExtension "my.holiday.photo.JPEG" = "my.holiday.photo"
  ∧ stripExtension "README" = "README".
Proof.
  destruct (stripExtension_stem "my.holiday.photo.JPEG") as (Hstem & _).
  destruct (stripExtension_stem "README") as (_ & Hsame & _).
  split; [|exact (Hsame eq_refl)].
  apply (Hstem "my.holiday.photo" "JPEG"); [reflexivity|discriminate|reflexivity].
Defined.

(** X8.  In the archive an item keeps the name of its own download button
    ([handleDownload]) exactly when no earlier entry has taken that name; the
    first entry always keeps it. *)
Theorem archive_keeps_download_name (currentImages : list ProcessedImage)
    (zip : list (string * Blob)) (k : nat) (img : ProcessedImage) (name dl : string)
    (blob : Blob) :
  forEachCompleted (filter exportable currentImages) ∅ [] = Some zip →
  filter exportable currentImages !! k = Some img →
  zip !! k = Some (name, blob) →
  handleDownload img = Some dl →
  (name = dl ↔ dl ∉ (take k zip).*1) ∧ (k = 0%nat → name = dl).
Proof.
  intros Hrun Hk Hentry Hdl.
  destruct (export_entries currentImages) as (zip' & Hrun' & _ & _ & Hent).
  assert (zip' = zip) as -> by congruence.
  destruct (Hent k img Hk) as (j & blob' & Hentry' & _ & Hfree & Hused).
  assert (name = candidate (stripExtension (file_name (originalFile img))) j)
    as -> by congruence.
  assert (dl = candidate (stripExtension (file_name (originalFile img))) 0) as ->.
  { unfold handleDownload in Hdl. destruct (truthy (webpUrl img)); [|done].
    by injection Hdl as <-. }
  assert (candidate (stripExtension (file_name (originalFile img))) 0
            ∉ (take k zip).*1 → j = 0%nat) as Hzero.
  { intros Hout. destruct j as [|j]; [done|]. destruct Hout. apply Hused. lia. }
  split.
  - split; [by intros ->%(inj _)|by intros ->%Hzero].
  - intros ->. rewrite Hzero; [done|]. cbn. apply not_elem_of_nil.
Qed.

Lemma archive_keeps_download_name_witness :
  forEachCompleted (filter exportable [done "0"; done "1"]) ∅ []
  = Some [("photo.webp", webp); ("photo_1.webp", webp)]
  ∧ handleDownload (done "0") = Some "photo.webp"
  ∧ ("photo.webp" = "photo.webp"
     ↔ "photo.webp" ∉ (take 0 [("photo.webp", webp); ("photo_1.webp", webp)]).*1).
Proof.
  assert (forEachCompleted (filter exportable [done "0"; done "1"]) ∅ []
          = Some [("photo.webp", webp); ("photo_1.webp", webp)]) as Hrun.
  { change (filter exportable [done "0"; done "1"]) with [done "0"; done "1"].
    by apply photo_twice. }
  split_and!; [exact Hrun|reflexivity|].
  exact (proj1 (archive_keeps_download_name [done "0"; done "1"] _ 0 (done "0")
                  "photo.webp" "photo.webp" webp Hrun eq_refl eq_refl eq_refl)).
Defined.

(** ** Counts, callbacks and fallbacks *)

(** X9.  The derived counts of [App] split the list: idle, failed and
    completed items never count for more than the length, they count for
    all of it exactly when nothing is processing, and the shortcut's
    [hasIdle] test is the test that the idle count is positive. *)
Theorem counts_split (imgs : list ProcessedImage) :
  (idleCount imgs + failedCount imgs + completedCount imgs ≤ length imgs)%nat
  ∧ (isProcessing imgs = false
     ↔ (idleCount imgs + failedCount imgs + completedCount imgs)%nat = length imgs)
  ∧ (hasIdle imgs = true ↔ (0 < idleCount imgs)%nat).
Proof.
  unfold idleCount, failedCount, completedCount, isProcessing, hasIdle.
  induction imgs as [|img imgs (IHle & IHeq & IHidle)]; [cbn; split_and!; [lia|done|]|].
  { split; [done|]. cbn. lia. }
  rewrite !filter_cons. cbn [existsb length].
  destruct (status img) eqn:Hst; repeat (case_decide; try done); cbn;
    split_and!; rewrite ?IHeq, ?IHidle; try lia; split; (done || lia).
Qed.

Lemma counts_split_witness :
  isProcessing [done "0"; done "1"] = false
  ∧ (idleCount [done "0"; done "1"] + failedCount [done "0"; done "1"]
     + completedCount [done "0"; done "1"])%nat = 2%nat.
Proof.
  destruct (counts_split [done "0"; done "1"]) as (_ & Hall & _).
  split; [reflexivity|exact (proj1 Hall eq_refl)].
Defined.

Lemma filter_nil_Forall {A} (P : A → Prop) `{!∀ x, Decision (P x)} (l : list A) :
  filter P l = [] ↔ Forall (λ x, ¬ P x) l.
Proof.
  induction l as [|x l IH]; [by split; [constructor|]|].
  rewrite filter_cons. destruct (decide (P x)).
  - split; [done|]. by intros [? _]%Forall_cons.
  - rewrite IH. split; [by constructor|by intros [_ ?]%Forall_cons].
Qed.

(** X10.  [processFiles] does nothing for a missing list; otherwise it calls
    [onFilesAdded], once and with all the new items, exactly when some file is
    supported, it leaves an error text exactly when some file is not, and the
    new items carry the next identifiers of [generateId], in order. *)
Theorem processFiles_callbacks (generateId : nat → string) (generated : nat)
    (filesArray : list File) :
  processFiles generateId generated None = None
  ∧ ∃ r, processFiles generateId generated (Some filesArray) = Some r
      ∧ (onFilesAdded r = None ↔ Forall (λ file, ¬ supported file) filesArray)
      ∧ (onFilesAdded r = None ∨ onFilesAdded r = Some (newImages r))
      ∧ (errorText r = None ↔ Forall supported filesArray)
      ∧ id <$> newImages r
        = (λ k, generateId (generated + k)%nat) <$> seq 0 (length (newImages r)).
Proof.
  split; [done|]. eexists. split; [reflexivity|].
  cbn [onFilesAdded newImages errorText invalidCount].
  rewrite length_imap.
  assert (∀ {A B} (l : list A) (x : B),
            (if 0 <? Z.of_nat (length l) then Some x else None) = None ↔ l = [])
    as Hif.
  { intros A B [|a l] x; cbn; [done|]. split; discriminate. }
  assert (∀ file, Is_true (isJpeg file || isPng file) ↔ supported file) as Hacc.
  { intros file. rewrite <- accepted_supported. apply Is_true_true. }
  split_and!.
  - rewrite Hif, filter_nil_Forall. apply Forall_proper; [|done].
    intros file. cbn. by rewrite Hacc.
  - destruct (filter _ filesArray); cbn; [by left|by right].
  - rewrite Hif, filter_nil_Forall. apply Forall_proper; [|done].
    intros file. cbn. rewrite <- Hacc.
    destruct (isJpeg file || isPng file); cbn; tauto.
  - rewrite <- (list_fmap_id (imap _ _)) at 1.
    by rewrite (ids_imap generateId _ (λ img, img) generated).
Qed.

Lemma processFiles_callbacks_witness :
  ∃ r, processFiles exampleId 3 (Some [notes]) = Some r
    ∧ onFilesAdded r = None
    ∧ errorText r = Some "1 file ignored. Only JPG and PNG files are supported.".
Proof.
  destruct (processFiles_callbacks exampleId 3 [notes])
    as (_ & r & Hr & Hnone & _ & _ & _).
  exists r. split_and!; [exact Hr| |].
  - apply Hnone. constructor; [|constructor].
    intros Hsup%accepted_supported. discriminate Hsup.
  - injection Hr as <-. reflexivity.
Defined.

(** X11.  The fallbacks of a row are never what decides the pace of an item
    the application made: an item that came through [handleFilesAdded] is
    converted with the delay of its batch, between 4000 and 20000 ms, so that
    its timer runs between 40 and 200 times, and with the quality of the
    moment it was dropped (0.8 standing in for a quality of 0); an item that
    was retried is converted with 3000 ms, 30 runs of the timer. *)
Theorem fallbacks_unused (q : Q) (newFiles prev : list ProcessedImage) (i : string)
    (img : ProcessedImage) :
  (img ∈ handleFilesAdded q newFiles [] →
     durationToUse img = Z.min 20000 (3000 + 1000 * Z.of_nat (length newFiles))
     ∧ 4000 ≤ durationToUse img ≤ 20000
     ∧ 40 ≤ ceilDiv (durationToUse img) updateInterval ≤ 200
     ∧ qualityToUse img = (if Qeq_bool q 0 then (8 # 10)%Q else q))
  ∧ (img ∈ handleRetry i prev → id img = i →
       durationToUse img = 3000
       ∧ ceilDiv (durationToUse img) updateInterval = 30).
Proof.
  split.
  - unfold handleFilesAdded. cbn [app]. intros (f & -> & Hf)%list_elem_of_fmap.
    assert (0 < length newFiles)%nat by (destruct newFiles; [by apply elem_of_nil in Hf|cbn; lia]).
    unfold durationToUse, qualityToUse. cbn.
    assert (Z.min 20000 (3000 + Z.of_nat (length newFiles) * 1000)
            = Z.min 20000 (3000 + 1000 * Z.of_nat (length newFiles))) as -> by lia.
    destruct (Z.eqb_spec (Z.min 20000 (3000 + 1000 * Z.of_nat (length newFiles))) 0);
      [lia|].
    split_and!; [done|lia|lia| | |done];
      unfold ceilDiv, updateInterval; Z.div_mod_to_equations; lia.
  - unfold handleRetry. intros (img0 & -> & _)%list_elem_of_fmap.
    case_decide as Hid; [done|]. intros Hi. by destruct Hid.
Qed.

Lemma fallbacks_unused_witness :
  durationToUse (done "0") = 4000
  ∧ ∃ img, img ∈ handleFilesAdded (8 # 10)%Q [done "0"] []
      ∧ durationToUse img = 4000 ∧ qualityToUse img = (8 # 10)%Q.
Proof.
  split; [reflexivity|].
  assert (∃ img, handleFilesAdded (8 # 10)%Q [done "0"] [] = [img]) as [img Himg]
    by (eexists; reflexivity).
  assert (img ∈ handleFilesAdded (8 # 10)%Q [done "0"] []) as Hin
    by (rewrite Himg; left).
  destruct (proj1 (fallbacks_unused (8 # 10)%Q [done "0"] [] "0" img) Hin)
    as (Hd & _ & _ & Hq).
  exists img. split_and!; [exact Hin|exact Hd|exact Hq].
Defined.

(** ** More on the sessions that can be reached *)

Lemma elem_row (imgs : list ProcessedImage) img :
  NoDup (id <$> imgs) → img ∈ imgs → row (id img) imgs = Some img.
Proof.
  intros Hnd Hin. unfold row.
  destruct (filter (λ img0, id img0 = id img) imgs) as [|img0 rest] eqn:Hf.
  - assert (img ∈ filter (λ img0, id img0 = id img) imgs) as Hin'
      by by apply list_elem_of_filter.
    rewrite Hf in Hin'. by apply elem_of_nil in Hin'.
  - assert (img0 ∈ filter (λ img0, id img0 = id img) imgs) as [Hid Hin0]%list_elem_of_filter
      by (rewrite Hf; left).
    cbn. f_equal. by eapply same_id.
Qed.

Lemma settled_unsettled img img' :
  settledFields img → status img ≠ Completed → status img ≠ Error →
  status img' ≠ Completed → status img' ≠ Error →
  webpBlob img' = webpBlob img → error img' = error img ∨ error img' = None →
  settledFields img'.
Proof.
  intros (Hb & He & _) ???? Hblob Herr. unfold settledFields.
  rewrite Hblob. split_and!; [| |done].
  - rewrite Hb. split; done.
  - destruct Herr as [-> | ->]; [rewrite He; split; done|].
    split; [by intros [? ?]|done].
Qed.

Section Settled.
Variable generateId : nat → string.
Hypothesis generateId_inj : Inj (=) (=) generateId.

Lemma settled_exec s c :
  invariant generateId s → Forall settledFields (images s) → enabled c s = true →
  Forall settledFields (images (exec generateId c s)).
Proof.
  intros [Hnd Hgen Hcons Hrows] Hset Hen.
  rewrite Forall_forall in Hcons.
  destruct c as [fileList|q| |i env|i|i| |]; cbn in Hen |- *; try done.
  - case_match; [|done]. unfold handleFilesAdded. apply Forall_app. split; [done|].
    apply Forall_fmap, Forall_forall. intros f Hf.
    match goal with H : (if ?b then _ else _) = Some _ |- _ =>
      destruct b; [|done]; injection H as <- end.
    assert (Forall (λ f, status f = Idle ∧ webpBlob f = None ∧ error f = None)
              (imap (λ k file, {| id := generateId (generated s + k)%nat;
                  originalFile := file; status := Idle; webpBlob := None;
                  webpUrl := None; originalSize := file_size file; newSize := None;
                  error := None; progress := None; delayDuration := None;
                  targetQuality := None |})
                 (filter (λ file, isJpeg file || isPng file) fileList))) as Hnew
      by by apply imap_Forall.
    rewrite Forall_forall in Hnew. destruct (Hnew f Hf) as (Hst & Hb & He).
    unfold settledFields. cbn. rewrite Hst, Hb, He.
    split_and!; [split; [by intros [? ?]|done]..|done].
  - apply Forall_fmap. eapply Forall_impl; [exact Hset|].
    intros img Hs. cbn. case_decide as Hst; [|done].
    eapply settled_unsettled; [exact Hs|rewrite Hst; done..|done|done|done|by left].
  - destruct (row i (images s)) as [item|] eqn:Hrow; [|done].
    apply andb_true_iff in Hen as [[Hst _]%andb_true_iff _].
    apply bool_decide_eq_true in Hst. apply row_elem in Hrow as [Hitem <-].
    cbn. apply Forall_fmap, Forall_forall. intros img Hin. cbn.
    rewrite Forall_forall in Hset. case_decide as Hid; [|by apply Hset].
    assert (img = item) as -> by by eapply same_id.
    eapply settled_unsettled; [by apply Hset|rewrite Hst; done..|done|done|done|by right].
  - destruct (inflight s !! i) as [[|u rest]|] eqn:Hrun; try done.
    assert (i ∈ id <$> images s) as (item & -> & Hitem)%list_elem_of_fmap
      by by apply Hrows.
    destruct (consistent_running _ _ _ (Hcons item Hitem) Hrun)
      as [Hst (cur & reports & env & outcome & Hcur & Hupd & Hasc)].
    cbn. apply Forall_fmap, Forall_forall. intros img Hin. cbn.
    rewrite Forall_forall in Hset. case_decide as Hid; [|by apply Hset].
    assert (img = item) as -> by by eapply same_id.
    specialize (Hset item Hitem).
    destruct reports as [|p reports]; injection Hupd as -> _.
    + destruct Hset as (Hb & He & _). rewrite Hst in Hb, He.
      destruct outcome as [blob|message]; unfold settledFields; cbn.
      * split_and!; [done|rewrite He; split; done|]. intros _. by eexists _, _.
      * split_and!; [rewrite Hb; split; done|done|done].
    + eapply settled_unsettled; [exact Hset|rewrite Hst; done..|cbn; by rewrite Hst|cbn; by rewrite Hst|done|by left].
  - destruct (row i (images s)) as [item|] eqn:Hrow; [|done].
    apply bool_decide_eq_true in Hen. apply row_elem in Hrow as [Hitem <-].
    apply Forall_fmap, Forall_forall. intros img Hin. cbn.
    rewrite Forall_forall in Hset. case_decide as Hid; [|by apply Hset].
    assert (img = item) as -> by by eapply same_id.
    destruct (Hset item Hitem) as (Hb & He & _). rewrite Hen in Hb, He.
    unfold settledFields. cbn. split_and!; [rewrite Hb; split; done| |done].
    split; [by intros [? ?]|done].
  - rewrite Forall_forall in Hset. apply Forall_forall.
    intros img [_ ?]%list_elem_of_filter. by apply Hset.
  - rewrite Forall_forall in Hset. apply Forall_forall.
    intros img [_ ?]%list_elem_of_filter. by apply Hset.
Qed.

Lemma reachable_settled s :
  reachable generateId s → Forall settledFields (images s).
Proof.
  induction 1 as [|s c Hs IH Hen]; [constructor|].
  apply settled_exec; [by apply reachable_invariant|done..].
Qed.
End Settled.

Lemma filter_Forall_iff {A} (P Q : A → Prop) `{!∀ x, Decision (P x), !∀ x, Decision (Q x)}
    (l : list A) :
  Forall (λ x, P x ↔ Q x) l → filter P l = filter Q l.
Proof.
  induction 1 as [|x l Hx _ IH]; [done|].
  rewrite !filter_cons, IH. destruct (decide (P x)) as [HP|HP].
  - by rewrite decide_True by by apply Hx.
  - rewrite decide_False; [done|]. by rewrite <- Hx.
Qed.

Section Further.
Variable generateId : nat → string.
Hypothesis generateId_inj : Inj (=) (=) generateId.

(** X12.  In every session that can be reached an item has a result exactly
    when it is completed and an error message exactly when it is in error,
    never both; a completed item has its blob, its URL, the size of the blob
    as [newSize] and progress 100. *)
Theorem result_and_error_fields (s : Session) (img : ProcessedImage) :
  reachable generateId s → img ∈ images s →
  (is_Some (webpBlob img) ↔ status img = Completed)
  ∧ (is_Some (error img) ↔ status img = Error)
  ∧ ¬ (is_Some (webpBlob img) ∧ is_Some (error img))
  ∧ (status img = Completed →
     ∃ blob url, webpBlob img = Some blob ∧ webpUrl img = Some url
                 ∧ newSize img = Some (blob_size blob)
                 ∧ progress img = Some 100).
Proof.
  intros Hs Hin.
  pose proof (reachable_settled generateId generateId_inj s Hs) as Hset.
  pose proof (reachable_invariant generateId generateId_inj s Hs) as [_ _ Hcons _].
  rewrite Forall_forall in Hset, Hcons.
  destruct (Hset img Hin) as (Hb & He & Hdone). specialize (Hcons img Hin).
  split_and!; [done|done| |].
  - rewrite Hb, He. intros [-> ?]. done.
  - intros Hst. destruct (Hdone Hst) as (blob & url & ? & ? & ?).
    exists blob, url. split_and!; [done..|].
    unfold consistent in Hcons. rewrite Hst in Hcons. tauto.
Qed.

(** X13.  In every session that can be reached there is one running
    conversion for each converting item and none for any other: the ids of
    the items are distinct, an item is converting exactly when its row has a
    conversion in flight, and every conversion in flight belongs to an item
    of the store. *)
Theorem one_conversion_per_converting (s : Session) :
  reachable generateId s →
  NoDup (id <$> images s)
  ∧ (∀ img, img ∈ images s →
       (status img = Converting ↔ is_Some (inflight s !! id img)))
  ∧ (∀ i, is_Some (inflight s !! i) →
       ∃ img, img ∈ images s ∧ id img = i ∧ status img = Converting).
Proof.
  intros [Hnd _ Hcons Hrows]%(reachable_invariant generateId generateId_inj).
  rewrite Forall_forall in Hcons.
  assert (∀ img, img ∈ images s →
            (status img = Converting ↔ is_Some (inflight s !! id img))) as Hiff.
  { intros img Hin. specialize (Hcons img Hin). split.
    - intros Hst. unfold consistent in Hcons. rewrite Hst in Hcons.
      destruct Hcons as (updates & -> & _). by eexists.
    - intros [updates Hrun]. by destruct (consistent_running _ _ _ Hcons Hrun). }
  split_and!; [done|done|].
  intros i Hi.
  assert (i ∈ id <$> images s) as (img & -> & Hin)%list_elem_of_fmap by by apply Hrows.
  exists img. split_and!; [done..|]. by apply Hiff.
Qed.

(** X14.  Nothing holds back a pending item, and a failed item can always be
    tried again: in a session that can be reached the row of a pending item
    can start its conversion, which makes the item converting with progress
    0 and no error; and for an item in error Retry is available and leaves an
    item whose row can start its conversion. *)
Theorem pending_starts (s : Session) (img : ProcessedImage) (env : Platform) :
  reachable generateId s → img ∈ images s →
  wellBehaved env (originalFile img) = true →
  (status img = Pending →
     enabled (Spawn (id img) env) s = true
     ∧ ∃ img', img' ∈ images (exec generateId (Spawn (id img) env) s)
         ∧ id img' = id img ∧ status img' = Converting
         ∧ progress img' = Some 0 ∧ error img' = None)
  ∧ (status img = Error →
       enabled (Retry (id img)) s = true
       ∧ enabled (Spawn (id img) env) (exec generateId (Retry (id img)) s) = true).
Proof.
  intros Hs Hin Hwf.
  assert (∀ s img, reachable generateId s → img ∈ images s →
            wellBehaved env (originalFile img) = true → status img = Pending →
            enabled (Spawn (id img) env) s = true) as Hspawn.
  { clear s img Hs Hin Hwf. intros s img Hs Hin Hwf Hst.
    destruct (reachable_invariant generateId generateId_inj s Hs) as [Hnd _ Hcons _].
    rewrite Forall_forall in Hcons. specialize (Hcons img Hin).
    unfold consistent in Hcons. rewrite Hst in Hcons. destruct Hcons as [_ Hfree].
    cbn. rewrite (elem_row _ _ Hnd Hin), Hwf.
    by rewrite !bool_decide_eq_true_2. }
  destruct (reachable_invariant generateId generateId_inj s Hs) as [Hnd _ _ _].
  split.
  - intros Hst. split; [by apply Hspawn|].
    exists (spread img updateConverting). cbn.
    rewrite (elem_row _ _ Hnd Hin). cbn. split_and!; [|done..].
    apply list_elem_of_fmap. exists img. by rewrite decide_True.
  - intros Hst.
    assert (enabled (Retry (id img)) s = true) as Hen.
    { cbn. rewrite (elem_row _ _ Hnd Hin). by apply bool_decide_eq_true_2. }
    split; [done|].
    set (img' := {| id := id img; originalFile := originalFile img; status := Pending;
                    webpBlob := webpBlob img; webpUrl := webpUrl img;
                    originalSize := originalSize img; newSize := newSize img;
                    error := None; progress := Some 0; delayDuration := Some 3000;
                    targetQuality := targetQuality img |}).
    apply (Hspawn _ img'); [by constructor| |done|done].
    cbn. apply list_elem_of_fmap. exists img. by rewrite decide_True.
Qed.

(** X15.  In every session that can be reached the export takes every
    completed item: the archive has as many entries as [completedCount]
    says, and the export does nothing exactly when that count is 0. *)
Theorem archive_counts_completed (s : Session) (fault : Fault) (now : Z) (page : Page) :
  reachable generateId s → imagesRef page = images s →
  (∃ zip, forEachCompleted (filter exportable (images s)) ∅ [] = Some zip
          ∧ length zip = completedCount (images s))
  ∧ (completedCount (images s) = 0%nat → handleDownloadAll fault now page = Some page)
  ∧ (handleDownloadAll fault now page = Some page → completedCount (images s) = 0%nat).
Proof.
  intros Hs Href.
  pose proof (reachable_settled generateId generateId_inj s Hs) as Hset.
  assert (filter exportable (images s)
          = filter (λ img, status img = Completed) (images s)) as Hfilter.
  { apply filter_Forall_iff. eapply Forall_impl; [exact Hset|].
    intros img (Hb & _). cbn. rewrite Hb. tauto. }
  destruct (export_entries (images s)) as (zip & Hrun & Hlen & _).
  split_and!.
  - exists zip. split; [done|]. by rewrite Hlen, Hfilter.
  - unfold completedCount. rewrite <- Hfilter. intros Hz.
    unfold handleDownloadAll. rewrite Href. by rewrite decide_True.
  - unfold completedCount, handleDownloadAll. rewrite <- Hfilter, Href, Hrun.
    destruct (decide (length (filter exportable (images s)) = 0%nat)); [done|].
    destruct fault; intros [= Heq].
    + apply (f_equal downloads), (f_equal length) in Heq.
      cbn in Heq. rewrite length_app in Heq. cbn in Heq. lia.
    + apply (f_equal consoleErrors) in Heq. cbn in Heq. lia.
    + apply (f_equal consoleErrors) in Heq. cbn in Heq. lia.
Qed.
End Further.

Section Completion.
Variable generateId : nat → string.
Hypothesis generateId_inj : Inj (=) (=) generateId.

Lemma deliver_once s i u rest :
  reachable generateId s → inflight s !! i = Some (u :: rest) →
  enabled (Deliver i) s = true
  ∧ reachable generateId (exec generateId (Deliver i) s)
  ∧ inflight (exec generateId (Deliver i) s) !! i
    = (match rest with [] => None | _ => Some rest end)
  ∧ (∀ img, img ∈ images s → id img ≠ i →
       img ∈ images (exec generateId (Deliver i) s))
  ∧ (rest = [] →
     ∃ img, img ∈ images (exec generateId (Deliver i) s) ∧ id img = i
       ∧ (status img = Completed ∨ status img = Error)).
Proof.
  intros Hs Hrun.
  assert (enabled (Deliver i) s = true) as Hen by (cbn; by rewrite Hrun).
  split_and!; [done|by constructor|..]; cbn; rewrite Hrun; cbn.
  - destruct rest; [apply lookup_delete_eq|apply lookup_insert_eq].
  - intros img Hin Hid. apply list_elem_of_fmap. exists img.
    by rewrite decide_False.
  - intros ->.
    destruct (reachable_invariant generateId generateId_inj s Hs) as [_ _ Hcons Hrows].
    assert (i ∈ id <$> images s) as (item & -> & Hitem)%list_elem_of_fmap
      by by apply Hrows.
    rewrite Forall_forall in Hcons.
    destruct (consistent_running _ _ _ (Hcons item Hitem) Hrun)
      as [Hst (cur & reports & env & outcome & Hcur & Hupd & Hasc)].
    assert (u = settle env outcome) as ->.
    { destruct reports as [|p [|? ?]]; [by injection Hupd|done..]. }
    exists (spread item (settle env outcome)). split_and!.
    + apply list_elem_of_fmap. exists item. by rewrite decide_True.
    + by destruct outcome.
    + destruct outcome; [by left|by right].
Qed.

Lemma settles_within n :
  ∀ s i updates, reachable generateId s → inflight s !! i = Some updates →
    length updates = n →
    ∃ s', run generateId (replicate n (Deliver i)) s = Some s'
      ∧ reachable generateId s'
      ∧ inflight s' !! i = None
      ∧ (∃ img, img ∈ images s' ∧ id img = i
                ∧ (status img = Completed ∨ status img = Error))
      ∧ (∀ img, img ∈ images s → id img ≠ i → img ∈ images s').
Proof.
  induction n as [|n IH]; intros s i updates Hs Hrun Hlen.
  { destruct updates; [|done].
    destruct (reachable_invariant generateId generateId_inj s Hs) as [_ _ Hcons Hrows].
    assert (i ∈ id <$> images s) as (item & -> & Hitem)%list_elem_of_fmap
      by by apply Hrows.
    rewrite Forall_forall in Hcons.
    destruct (consistent_running _ _ _ (Hcons item Hitem) Hrun)
      as [_ (? & reports & ? & ? & _ & Hupd & _)].
    by destruct reports. }
  destruct updates as [|u rest]; [done|]. injection Hlen as Hlen.
  destruct (deliver_once s i u rest Hs Hrun) as (Hen & Hs1 & Hrun1 & Hkeep & Hlast).
  cbn [replicate run]. rewrite Hen.
  destruct rest as [|u' rest'].
  - cbn in Hlen. subst n. cbn. eexists. split_and!; [done..| |done].
    by apply Hlast.
  - destruct (IH _ i (u' :: rest') Hs1 Hrun1 Hlen) as (s' & Hrun' & Hs' & Hnone & Himg & Hkeep').
    exists s'. split_and!; [done..|].
    intros img Hin Hid. apply Hkeep'; [|done]. by apply Hkeep.
Qed.

(** X16.  A conversion that has started always ends: in a session that can
    be reached, letting the row of a converting item make the updates its
    conversion still has to make, one after the other, leaves the item
    completed or in error with nothing in flight for it, and every other
    item as it was. *)
Theorem converting_settles (s : Session) (i : string) (updates : list Partial.t) :
  reachable generateId s → inflight s !! i = Some updates →
  ∃ s', run generateId (replicate (length updates) (Deliver i)) s = Some s'
    ∧ inflight s' !! i = None
    ∧ (∃ img, img ∈ images s' ∧ id img = i
              ∧ (status img = Completed ∨ status img = Error))
    ∧ (∀ img, img ∈ images s → id img ≠ i → img ∈ images s').
Proof.
  intros Hs Hrun.
  destruct (settles_within (length updates) s i updates Hs Hrun eq_refl)
    as (s' & ? & _ & ? & ? & ?).
  by exists s'.
Qed.
End Completion.

(** ** The further theorems at work on the examples *)

Lemma converted_0 :
  ∃ s updates, run exampleId (converted 0) initial = Some s
    ∧ inflight s !! "0" = Some updates
    ∧ length updates = 47%nat.
Proof.
  eexists. eexists. split; [vm_compute; reflexivity|].
  split; vm_compute; reflexivity.
Qed.

Lemma started_1 :
  ∃ s img, run exampleId [Drop [photo; notes]; StartConversion] initial = Some s
    ∧ images s = [img] ∧ status img = Pending ∧ originalFile img = photo
    ∧ id img = "0".
Proof.
  eexists. eexists. split; [vm_compute; reflexivity|].
  split_and!; vm_compute; reflexivity.
Qed.

Lemma result_and_error_fields_witness :
  ∃ s img, reachable exampleId s ∧ img ∈ images s
    ∧ (is_Some (webpBlob img) ↔ status img = Completed)
    ∧ ¬ (is_Some (webpBlob img) ∧ is_Some (error img)).
Proof.
  destruct converted_47 as (s & Hrun & Himg).
  assert (reachable exampleId s) as Hs
    by (eapply run_reachable; [constructor|exact Hrun]).
  clear Hrun. exists s, (done "0").
  assert (done "0" ∈ images s) as Hin by (rewrite Himg; left).
  destruct (result_and_error_fields exampleId exampleId_inj s (done "0") Hs Hin)
    as (Hb & _ & Hnot & _).
  split_and!; [exact Hs|exact Hin|exact Hb|exact Hnot].
Defined.

Lemma one_conversion_per_converting_witness :
  ∃ s, reachable exampleId s
    ∧ NoDup (id <$> images s)
    ∧ ∃ img, img ∈ images s ∧ id img = "0" ∧ status img = Converting.
Proof.
  destruct converted_46 as (s & Hrun & _ & Hfl & _).
  assert (reachable exampleId s) as Hs
    by (eapply run_reachable; [constructor|exact Hrun]).
  clear Hrun. exists s.
  destruct (one_conversion_per_converting exampleId exampleId_inj s Hs)
    as (Hnd & _ & Hrows).
  split_and!; [exact Hs|exact Hnd|].
  apply Hrows. rewrite Hfl. eexists. reflexivity.
Defined.

Lemma pending_starts_witness :
  ∃ s img, reachable exampleId s ∧ img ∈ images s ∧ status img = Pending
    ∧ wellBehaved browser (originalFile img) = true
    ∧ enabled (Spawn (id img) browser) s = true.
Proof.
  destruct started_1 as (s & img & Hrun & Himg & Hst & Hfile & _).
  assert (reachable exampleId s) as Hs
    by (eapply run_reachable; [constructor|exact Hrun]).
  clear Hrun.
  assert (img ∈ images s) as Hin by (rewrite Himg; left).
  assert (wellBehaved browser (originalFile img) = true) as Hwf
    by (rewrite Hfile; reflexivity).
  exists s, img. split_and!; [exact Hs|exact Hin|exact Hst|exact Hwf|].
  exact (proj1 (proj1 (pending_starts exampleId exampleId_inj s img browser Hs Hin Hwf)
                  Hst)).
Defined.

Lemma archive_counts_completed_witness :
  ∃ s, reachable exampleId s
    ∧ ∃ zip, forEachCompleted (filter exportable (images s)) ∅ [] = Some zip
             ∧ length zip = completedCount (images s).
Proof.
  destruct converted_47 as (s & Hrun & _).
  assert (reachable exampleId s) as Hs
    by (eapply run_reachable; [constructor|exact Hrun]).
  clear Hrun. exists s. split; [exact Hs|].
  exact (proj1 (archive_counts_completed exampleId exampleId_inj s NoFault 0
                  {| imagesRef := images s; downloads := []; alerts := [];
                     consoleErrors := 0 |} Hs eq_refl)).
Defined.

Lemma converting_settles_witness :
  ∃ s updates, reachable exampleId s ∧ inflight s !! "0" = Some updates
    ∧ ∃ s', run exampleId (replicate (length updates) (Deliver "0")) s = Some s'
        ∧ inflight s' !! "0" = None.
Proof.
  destruct converted_0 as (s & updates & Hrun & Hfl & _).
  assert (reachable exampleId s) as Hs
    by (eapply run_reachable; [constructor|exact Hrun]).
  clear Hrun. exists s, updates. split_and!; [exact Hs|exact Hfl|].
  destruct (converting_settles exampleId exampleId_inj s "0" updates Hs Hfl)
    as (s' & Hrun' & Hnone & _).
  exists s'. split; [exact Hrun'|exact Hnone].
Defined.

(** ** Clearing the failed items, the stage of a failure, the case of a name *)



(** X18.  The last percent reported tells how far a conversion got: 12 when
    the result of the read is empty or the image does not load, 15 when the
    canvas gives no context, 99 when the encoder gives no blob, and 100 when
    the promise resolves. *)
Theorem last_report_stage (env : Platform) (file : File) (q : Q) (d : Z) :
  match (convertToWebP env file q d).2 with
  | Resolved _ => last (convertToWebP env file q d).1 = Some 100
  | Rejected message =>
      (message = "FileReader result is empty" ∨ message = "Failed to load image" →
         last (convertToWebP env file q d).1 = Some 12)
      ∧ (message = "Could not get canvas context" →
           last (convertToWebP env file q d).1 = Some 15)
      ∧ (message = "Conversion failed" →
           last (convertToWebP env file q d).1 = Some 99)
  end.
Proof.
  unfold convertToWebP.
  destruct (readOutcome env) as [|result]; cbn [fst snd].
  { split_and!; [intros [?|?]|intros ?|intros ?]; discriminate. }
  destruct (truthy result); cbn [negb fst snd];
    [|split_and!; [intros _; apply last_snoc|intros ?; discriminate..]].
  destruct (imageLoads env); cbn [negb fst snd];
    [|split_and!; [intros _; apply last_snoc|intros ?; discriminate..]].
  destruct (getContext env); cbn [negb fst snd];
    [|split_and!; [intros [?|?]; discriminate|intros _; apply last_snoc
                  |intros ?; discriminate]].
  destruct (toBlob env q); cbn [fst snd]; [apply last_snoc|].
  split_and!; [intros [?|?]; discriminate|intros ?; discriminate|].
  intros _. rewrite timer_climb, !app_assoc. apply last_snoc.
Qed.

Lemma last_report_stage_witness :
  last (convertToWebP noContext photo (8 # 10)%Q 3000).1 = Some 15.
Proof.
  exact (proj1 (proj2 (last_report_stage noContext photo (8 # 10)%Q 3000)) eq_refl).
Defined.

Lemma lower_ascii_idemp c : lower_ascii (lower_ascii c) = lower_ascii c.
Proof. by destruct c as [[] [] [] [] [] [] [] []]. Qed.

Lemma toLowerCase_idemp s : toLowerCase (toLowerCase s) = toLowerCase s.
Proof.
  induction s as [|c s IH]; [done|]. cbn. by rewrite lower_ascii_idemp, IH.
Qed.

Lemma toLowerCase_app s t :
  toLowerCase (s +:+ t) = toLowerCase s +:+ toLowerCase t.
Proof.
  induction s as [|c s IH]; [done|].
  change (String c s +:+ t) with (String c (s +:+ t)).
  cbn [toLowerCase]. rewrite IH. done.
Qed.

(** X19.  The extension of a name counts whatever its case: a name that ends
    with [.jpg], [.jpeg] or [.png] in any mix of upper and lower case is
    accepted whatever the declared type, and for the tests of the ingestion
    and the badge of the row a file and the same file with its name in lower
    case are the same. *)
Theorem acceptance_ignores_case (name type : string) (size : Z) :
  let file := {| file_name := name; file_type := type; file_size := size |} in
  let lower := {| file_name := toLowerCase name; file_type := type;
                  file_size := size |} in
  isJpeg lower = isJpeg file ∧ isPng lower = isPng file
  ∧ getFileType lower = getFileType file
  ∧ (∀ stem ext, name = stem +:+ ext →
       toLowerCase ext = ".jpg" ∨ toLowerCase ext = ".jpeg" → isJpeg file = true)
  ∧ (∀ stem ext, name = stem +:+ ext → toLowerCase ext = ".png" →
       isPng file = true).
Proof.
  cbn zeta. split_and!.
  - unfold isJpeg. cbn. by rewrite toLowerCase_idemp.
  - unfold isPng. cbn. by rewrite toLowerCase_idemp.
  - unfold getFileType. cbn. by rewrite toLowerCase_idemp.
  - intros stem ext -> Hext. unfold isJpeg. cbn. rewrite toLowerCase_app.
    destruct Hext as [-> | ->].
    + rewrite (proj2 (endsWith_spec _ ".jpg")) by by eexists.
      apply orb_true_iff. left. apply orb_true_r.
    + rewrite (proj2 (endsWith_spec _ ".jpeg")) by by eexists.
      apply orb_true_r.
  - intros stem ext -> Hext. unfold isPng. cbn. rewrite toLowerCase_app, Hext.
    rewrite (proj2 (endsWith_spec _ ".png")) by by eexists.
    apply orb_true_r.
Qed.

Lemma acceptance_ignores_case_witness :
  isJpeg {| file_name := "IMG_0001.JPG"; file_type := ""; file_size := 1 |} = true.
Proof.
  destruct (acceptance_ignores_case "IMG_0001.JPG" "" 1) as (_ & _ & _ & Hjpg & _).
  apply (Hjpg "IMG_0001" ".JPG"); [reflexivity|left; reflexivity].
Defined.
